(** * Mastermind back end: guess scoring, game status and leaderboard order

    A shallow embedding of the two Lambda handlers of the workshop
    repository,

    - [amplify/functions/validate-guess/handler.ts] ([processEvent]), and
    - [amplify/functions/get-leaderboard/handler.ts] ([handler]),

    followed by the properties of the scoring loops, of the status rule and
    of the leaderboard order.

    Conventions of the embedding.
    - A peg is a JavaScript string; a sequence is a [list string].
    - JavaScript numbers that count things are integers of [Z].
    - The DynamoDB games table is a finite map from the key
      [(gameId, userId)] to the item stored under it; [processEvent] is a
      function from a table to an error or a new table and a response.
      The read and the update are taken to succeed, and the table serves
      one request at a time, a read returning the item as stored at that
      moment.  The publish handler starts one [processEvent] per event
      without waiting; it is embedded with the order in which the table
      serves the requests of these calls as a parameter.
    - [Array.prototype.sort] is the stable sort of the language
      definition. *)

From stdpp Require Import base gmap gmultiset list strings sorting.

Open Scope string_scope.
Open Scope Z_scope.

(** ** Data *)

(** The three values written to the [gameStatus] attribute. *)
Inductive GameStatus := playing | won | lost.

Global Instance GameStatus_eq_dec : EqDecision GameStatus.
Proof. solve_decision. Defined.

(** The value bound to [:guess] in the update expression. *)
Record GuessAttr := mkGuessAttr {
  ga_guess : list string;
  ga_blackPegs : Z;
  ga_whitePegs : Z
}.

(** An item of the games table.  [totalGuesses] may be absent (the handler
    defaults it to 0); the attributes [guess1], [guess2], ... are kept as a
    map from the number in the attribute name to the stored value. *)
Record GameItem := mkGameItem {
  secretCode : list string;
  totalGuesses : option Z;
  gameStatus : GameStatus;
  guesses : gmap Z GuessAttr
}.

(** [interface ValidateGuessInput]. *)
Record ValidateGuessInput := mkInput { guess : list string }.

(** The object returned by [processEvent]: the payload spread, then the
    feedback, the guess number, the status and the (possibly null) secret. *)
Record GuessResult := mkResult {
  r_guess : list string;
  r_blackPegs : Z;
  r_whitePegs : Z;
  r_guessNumber : Z;
  r_gameStatus : GameStatus;
  r_secretCode : option (list string)
}.

(** [new Error(message)]. *)
Inductive Err := Error (message : string).

(** The games table, keyed by [{ gameId, userId }]. *)
Abbreviation GamesTable := (gmap (string * string) GameItem).

(** ** The scoring loops of [processEvent] *)

(** Body of the first loop at index [i]: [guess[i] === secretCode[i]].
    [i] ranges below [guess.length], so [guess !! i] is a string; beyond the
    end of [secretCode] the right-hand side is [undefined] ([None]) and the
    comparison is false. *)
Definition exactStep (guess secretCode : list string) (correctPosition : Z) (i : nat) : Z :=
  if bool_decide (guess !! i = secretCode !! i) then correctPosition + 1 else correctPosition.

(** [for (let i = 0; i < payload.guess.length; i++)]. *)
Definition countExact (guess secretCode : list string) : Z :=
  foldl (exactStep guess secretCode) 0 (seq 0 (length guess)).

(** [Array.prototype.indexOf]: the first index holding a value strictly equal
    to [x]; [None] stands for -1. *)
Definition indexOf (l : list string) (x : string) : option nat :=
  fst <$> list_find (λ y, y = x) l.

(** Body of the second loop: the state is [(correctColor, secretIds)]. *)
Definition colorStep (st : Z * list string) (guessId : string) : Z * list string :=
  match indexOf st.2 guessId with
  | Some secretIndex => (st.1 + 1, <[secretIndex := ""]> st.2)
  | None => st
  end.

(** [for (const guessId of guessIds)], started on a fresh copy of
    [secretCode] with the counter at 0. *)
Definition colorLoop (guess secretIds : list string) : Z * list string :=
  foldl colorStep (0, secretIds) guess.

(** The value of [correctColor] when the second loop ends. *)
Definition countColor (guess secretCode : list string) : Z :=
  (colorLoop guess secretCode).1.

(** [(correctPosition, correctColor)] after [correctColor -= correctPosition]:
    the black and white pegs. *)
Definition feedback (guess secretCode : list string) : Z * Z :=
  let correctPosition := countExact guess secretCode in
  let correctColor := countColor guess secretCode in
  (correctPosition, correctColor - correctPosition).

(** ** Status and disclosure *)

(** The [if / else if / else] chain assigning [gameStatus]. *)
Definition nextStatus (correctPosition : Z) (secretCode : list string) (guessNumber : Z) : GameStatus :=
  if bool_decide (correctPosition = Z.of_nat (length secretCode)) then won
  else if bool_decide (10 ≤ guessNumber) then lost
  else playing.

(** The chain assigning [returnSecretCode]. *)
Definition returnSecretCode (status : GameStatus) (secretCode : list string) : option (list string) :=
  match status with
  | won => Some secretCode
  | lost => Some secretCode
  | playing => None
  end.

(** ** A store-and-error monad for the handler *)

Definition M (A : Type) : Type := GamesTable → Err + (GamesTable * A).

Global Instance M_ret : MRet M := λ A a t, inr (t, a).

Global Instance M_bind : MBind M := λ A B k m t,
  match m t with
  | inl e => inl e
  | inr (t', a) => k a t'
  end.

Definition throw {A} (e : Err) : M A := λ _, inl e.

(** [GetCommand]: the item stored under the key, if any. *)
Definition getItem (gameId userId : string) : M (option GameItem) :=
  λ t, inr (t, t !! (gameId, userId)).

(** [UpdateCommand] with
    [SET guess<n> = :guess, totalGuesses = :total, gameStatus = :gameStatus]
    on an item that exists: the three attributes are written, the others
    are kept. *)
Definition setGuess (item : GameItem) (guessNumber : Z) (g : GuessAttr) (status : GameStatus) : GameItem :=
  {| secretCode := secretCode item;
     totalGuesses := Some guessNumber;
     gameStatus := status;
     guesses := <[guessNumber := g]> (guesses item) |}.

Definition updateItem (gameId userId : string) (guessNumber : Z) (g : GuessAttr) (status : GameStatus) : M unit :=
  λ t, inr (alter (λ item, setGuess item guessNumber g status) (gameId, userId) t, tt).

(** [getItem] and [updateItem] take the two commands to be accepted.
    DynamoDB itself rejects a command whose key holds an empty string, and
    the update of [processEvent] is rejected when the guess number is
    negative (the attribute name [guess-1] is no path of an update
    expression) or exceeds [Number.MAX_SAFE_INTEGER] (the document client
    refuses to marshall [:total]).  The statements below that assert a
    response, or a particular error, carry the conditions under which the
    commands are accepted as hypotheses. *)
Definition maxSafeInteger : Z := 9007199254740991.


Definition updateAccepted (guessNumber : Z) : Prop := 0 ≤ guessNumber ≤ maxSafeInteger.

(** ** [processEvent] *)

Definition processEvent (payload : ValidateGuessInput) (gameId userId : string) : M GuessResult :=
  gameResult ← getItem gameId userId;
  match gameResult with
  | None => throw (Error "Game not found")
  | Some item =>
      let guessNumber := default 0 (totalGuesses item) + 1 in
      let '(correctPosition, correctColor) := feedback (guess payload) (secretCode item) in
      let status := nextStatus correctPosition (secretCode item) guessNumber in
      updateItem gameId userId guessNumber
        (mkGuessAttr (guess payload) correctPosition correctColor) status;;
      mret {| r_guess := guess payload;
             r_blackPegs := correctPosition;
             r_whitePegs := correctColor;
             r_guessNumber := guessNumber;
             r_gameStatus := status;
             r_secretCode := returnSecretCode status (secretCode item) |}
  end.

(** Successive invocations of [processEvent] for one game, each completed
    before the next starts; the responses are collected in order. *)
Fixpoint processEvents (payloads : list ValidateGuessInput) (gameId userId : string) : M (list GuessResult) :=
  match payloads with
  | [] => mret []
  | payload :: rest =>
      r ← processEvent payload gameId userId;
      rs ← processEvents rest gameId userId;
      mret (r :: rs)
  end.

(** What [processEvent] computes for an item it has found: the guess
    number, the response and the item as rewritten by the update. *)
Definition guessNumberOf (item : GameItem) : Z := default 0 (totalGuesses item) + 1.

Definition statusAfter (payload : ValidateGuessInput) (item : GameItem) : GameStatus :=
  nextStatus (feedback (guess payload) (secretCode item)).1 (secretCode item) (guessNumberOf item).

Definition resultOf (payload : ValidateGuessInput) (item : GameItem) : GuessResult :=
  {| r_guess := guess payload;
     r_blackPegs := (feedback (guess payload) (secretCode item)).1;
     r_whitePegs := (feedback (guess payload) (secretCode item)).2;
     r_guessNumber := guessNumberOf item;
     r_gameStatus := statusAfter payload item;
     r_secretCode := returnSecretCode (statusAfter payload item) (secretCode item) |}.

Definition itemAfter (payload : ValidateGuessInput) (item : GameItem) : GameItem :=
  setGuess item (guessNumberOf item)
    (mkGuessAttr (guess payload)
       (feedback (guess payload) (secretCode item)).1
       (feedback (guess payload) (secretCode item)).2)
    (statusAfter payload item).

(** ** Sample games *)

(** A game won at its first guess. *)
Definition sampleWon : GameItem :=
  {| secretCode := ["R";"G"];
     totalGuesses := Some 1;
     gameStatus := won;
     guesses := {[ 1 := mkGuessAttr ["R";"G"] 2 0 ]} |}.

(** A game just created. *)
Definition sampleFresh : GameItem :=
  {| secretCode := ["R";"G"]; totalGuesses := None; gameStatus := playing; guesses := ∅ |}.

(** A game still open after nine guesses (the stored guesses are left
    out). *)
Definition sampleLate : GameItem :=
  {| secretCode := ["R";"G"]; totalGuesses := Some 9; gameStatus := playing; guesses := ∅ |}.

(** Games still open after seven and after eight guesses. *)
Definition sampleSeventh : GameItem :=
  {| secretCode := ["R";"G"]; totalGuesses := Some 7; gameStatus := playing; guesses := ∅ |}.

Definition sampleEighth : GameItem :=
  {| secretCode := ["R";"G"]; totalGuesses := Some 8; gameStatus := playing; guesses := ∅ |}.

Definition sampleTable (item : GameItem) : GamesTable := {[ ("game-1", "user-1") := item ]}.

(** ** The leaderboard handler *)

(** [interface LeaderboardItem], with the table's partition key [userId]
    among the further attributes. *)
Record LeaderboardItem := mkItem {
  userId : string;
  difficulty : string;
  gamesWon : Z;
  bestScore : Z
}.

(** The comparator passed to [sort]. *)
Definition compareItems (a b : LeaderboardItem) : Z :=
  if bool_decide (gamesWon a ≠ gamesWon b) then gamesWon b - gamesWon a
  else bestScore a - bestScore b.

(** [Array.prototype.sort(cmp)] is a stable sort: [x] moves behind [y] only
    when [cmp x y] is positive.  Insertion from the right realises it. *)
Fixpoint insertSorted {A} (cmp : A → A → Z) (x : A) (l : list A) : list A :=
  match l with
  | [] => [x]
  | y :: l' => if bool_decide (cmp x y ≤ 0) then x :: y :: l' else y :: insertSorted cmp x l'
  end.

Definition arraySort {A} (cmp : A → A → Z) (l : list A) : list A :=
  foldr (insertSorted cmp) [] l.

(** [ScanCommand]: the items of the table, kept to those of the requested
    difficulty when the query parameter is present and not the empty
    string. *)
Definition scanItems (difficultyParam : option string) (table : list LeaderboardItem) : list LeaderboardItem :=
  match difficultyParam with
  | Some d => if bool_decide (d = "") then table else filter (λ item, difficulty item = d) table
  | None => table
  end.

(** [const leaderboard = (result.Items || []).map(...).sort(...)]. *)
Definition leaderboard (items : list LeaderboardItem) : list LeaderboardItem :=
  arraySort compareItems items.

(** The order the comparator stands for: more games won first, then the
    lower best score. *)
Definition ranksBefore (a b : LeaderboardItem) : Prop :=
  gamesWon b < gamesWon a ∨ (gamesWon a = gamesWon b ∧ bestScore a ≤ bestScore b).

(** Items that tie on both keys [(w, s)]. *)
Definition sameKeys (w s : Z) (item : LeaderboardItem) : Prop :=
  gamesWon item = w ∧ bestScore item = s.

Global Instance sameKeys_dec w s item : Decision (sameKeys w s item).
Proof. unfold sameKeys. apply _. Defined.

(** ** The scoring loops as structural recursions *)

(** Number of positions, within the shorter of the two lists, that hold the
    same peg. *)
Fixpoint exactPairs (guess secretCode : list string) : nat :=
  match guess, secretCode with
  | g :: gs, s :: ss => (if bool_decide (g = s) then 1 else 0) + exactPairs gs ss
  | _, _ => 0
  end%nat.

(** Number of guess pegs that find a slot of [secretIds], each found slot
    being overwritten with the empty string before the next peg is looked
    up. *)
Fixpoint rawMatches (guess secretIds : list string) : nat :=
  match guess with
  | [] => 0
  | g :: gs =>
      match indexOf secretIds g with
      | Some j => S (rawMatches gs (<[j := ""]> secretIds))
      | None => rawMatches gs secretIds
      end
  end%nat.

(** ** The multiset reading of the colour pass *)

(** The pegs of a sequence as a multiset. *)
Definition pegs (l : list string) : gmultiset string := list_to_set_disj l.

(** Size of the multiset intersection of the two sequences: every peg value
    is counted up to the minimum of its occurrence counts. *)
Definition sharedPegs (secret guess : list string) : nat :=
  size (pegs secret ∩ pegs guess).

(** The colour-match count as the scoring rule words it: the size of the
    multiset intersection minus the exact matches. *)
Definition specColorMatches (secret guess : list string) : Z :=
  Z.of_nat (sharedPegs secret guess) - countExact guess secret.

(** ** The stored history of a game *)

(** The guess attributes of an item are numbered 1 up to its
    [totalGuesses], without gaps. *)
Definition historyOk (item : GameItem) : Prop :=
  0 ≤ default 0 (totalGuesses item)
  ∧ ∀ k, is_Some (guesses item !! k) ↔ 1 ≤ k ≤ default 0 (totalGuesses item).

(** The attribute [processEvent] stores for a guess against a secret. *)
Definition guessAttrOf (payload : ValidateGuessInput) (secret : list string) : GuessAttr :=
  mkGuessAttr (guess payload)
    (feedback (guess payload) secret).1 (feedback (guess payload) secret).2.

(** ** The leaderboard request handler *)

(** The parts of the API Gateway event the handler reads:
    [event.httpMethod] and [event.queryStringParameters?.difficulty]. *)
Record APIGatewayProxyEvent := mkApiEvent {
  httpMethod : string;
  queryDifficulty : option string
}.

(** The response body, kept as the value that is serialised: the empty
    string, [{ leaderboard }] or [{ error }]. *)
Inductive Body :=
| EmptyBody
| LeaderboardBody (items : list LeaderboardItem)
| ErrorBody (error : string).

Record APIGatewayProxyResult := mkApiResult {
  statusCode : Z;
  headers : list (string * string);
  body : Body
}.

Definition corsHeaders : list (string * string) :=
  [("Access-Control-Allow-Origin", "*");
   ("Access-Control-Allow-Headers", "Content-Type,Authorization");
   ("Access-Control-Allow-Methods", "GET,OPTIONS")].

(** The handler of [get-leaderboard/handler.ts].  The leaderboard table is
    either the items an unfiltered scan returns (in scan order, within one
    page) or the error the scan command throws. *)
Module GetLeaderboard.
Definition handler (event : APIGatewayProxyEvent) (table : Err + list LeaderboardItem)
    : APIGatewayProxyResult :=
  if bool_decide (httpMethod event = "OPTIONS") then
    {| statusCode := 200; headers := corsHeaders; body := EmptyBody |}
  else
    match table with
    | inr items =>
        {| statusCode := 200;
           headers := corsHeaders;
           body := LeaderboardBody (leaderboard (scanItems (queryDifficulty event) items)) |}
    | inl _ =>
        {| statusCode := 500;
           headers := corsHeaders;
           body := ErrorBody "Internal server error" |}
    end.
End GetLeaderboard.

(** Three players of one difficulty and one of another. *)
Definition sampleBoard : list LeaderboardItem :=
  [mkItem "u1" "easy" 2 5; mkItem "u2" "hard" 3 9; mkItem "u3" "easy" 2 3; mkItem "u4" "easy" 2 5].

(** ** The publish handler *)

(** An element of [event.events] and of the returned [events]. *)
Record PublishEvent := mkEvent { ev_id : string; ev_payload : ValidateGuessInput }.

Record ResolvedEvent := mkResolved { re_id : string; re_payload : GuessResult }.

(** The parts of the AppSync event the handler reads: [event.info.operation],
    [event.identity.sub], [event.info.channel.path] and [event.events]. *)
Record LambdaEvent := mkLambdaEvent {
  operation : string;
  identitySub : string;
  channelPath : string;
  events : list PublishEvent
}.

(** [{ events: resolvedEvents }] for a publish, [{ events: event.events }]
    otherwise. *)
Inductive HandlerOutput :=
| Published (resolvedEvents : list ResolvedEvent)
| PassedThrough (evs : list PublishEvent).

(** [String.prototype.slice(start)] for a non-negative [start]: the string
    without its first [start] characters, empty when it has no more. *)
Fixpoint slice (start : nat) (s : string) : string :=
  match start, s with
  | S n, String _ s' => slice n s'
  | _, _ => s
  end.

(** [processEvent] from its first [await] on: what runs once the read has
    returned [gameResult]. *)
Definition afterGet (payload : ValidateGuessInput) (gameId userId : string)
    (gameResult : option GameItem) : M GuessResult :=
  match gameResult with
  | None => throw (Error "Game not found")
  | Some item =>
      let guessNumber := default 0 (totalGuesses item) + 1 in
      let '(correctPosition, correctColor) := feedback (guess payload) (secretCode item) in
      let status := nextStatus correctPosition (secretCode item) guessNumber in
      updateItem gameId userId guessNumber
        (mkGuessAttr (guess payload) correctPosition correctColor) status;;
      mret {| r_guess := guess payload;
             r_blackPegs := correctPosition;
             r_whitePegs := correctColor;
             r_guessNumber := guessNumber;
             r_gameStatus := status;
             r_secretCode := returnSecretCode status (secretCode item) |}
  end.

(** One call of [processEvent] started by [events.map]: suspended at the
    read, suspended at the update with the item it has read, or settled. *)
Inductive Task :=
| AwaitGet (payload : ValidateGuessInput)
| AwaitUpdate (payload : ValidateGuessInput) (item : GameItem)
| Fulfilled (r : GuessResult)
| Rejected (e : Err).

(** The table serves the request a call is suspended at, and the call runs
    to its next [await] or to its end.  A read that finds no item makes the
    call throw at once; a read that finds one leaves the call suspended at
    its update, whose values are already computed from the item read. *)
Definition serve (gameId userId : string) (task : Task) (t : GamesTable) : Task * GamesTable :=
  match task with
  | AwaitGet payload =>
      match getItem gameId userId t with
      | inr (t', Some item) => (AwaitUpdate payload item, t')
      | inr (t', None) =>
          match afterGet payload gameId userId None t' with
          | inl e => (Rejected e, t')
          | inr (t'', r) => (Fulfilled r, t'')
          end
      | inl e => (Rejected e, t)
      end
  | AwaitUpdate payload item =>
      match afterGet payload gameId userId (Some item) t with
      | inl e => (Rejected e, t)
      | inr (t', r) => (Fulfilled r, t')
      end
  | Fulfilled _ | Rejected _ => (task, t)
  end.

(** The calls of one publish with the table; [serveAt] lets the table serve
    the call at index [i] (nothing happens for an index out of range or a
    settled call). *)
Definition serveAt (gameId userId : string) (st : list Task * GamesTable) (i : nat)
    : list Task * GamesTable :=
  match st.1 !! i with
  | Some task => let '(task', t') := serve gameId userId task st.2 in (<[i := task']> st.1, t')
  | None => st
  end.

(** A schedule is the order in which the table serves the calls. *)
Definition runTasks (gameId userId : string) (schedule : list nat)
    (st : list Task * GamesTable) : list Task * GamesTable :=
  foldl (serveAt gameId userId) st schedule.

(** [Promise.all]: rejected as soon as one call is rejected (every rejection
    carries the same error here, so the first by index stands for the first
    in time), fulfilled with the results in input order once all calls are
    fulfilled, pending ([None]) otherwise. *)
Fixpoint promiseAll (tasks : list Task) : option (Err + list GuessResult) :=
  match tasks with
  | [] => Some (inr [])
  | task :: rest =>
      match task, promiseAll rest with
      | Rejected e, _ => Some (inl e)
      | _, Some (inl e) => Some (inl e)
      | Fulfilled r, Some (inr rs) => Some (inr (r :: rs))
      | _, _ => None
      end
  end.

(** The handler of [validate-guess/handler.ts] under a schedule: the
    outcome of the returned promise, if settled, and the table. *)
Module ValidateGuess.
Definition handler (event : LambdaEvent) (schedule : list nat) (t : GamesTable)
    : option (Err + HandlerOutput) * GamesTable :=
  if bool_decide (operation event = "PUBLISH") then
    let userId := identitySub event in
    let gameId := slice 6 (channelPath event) in
    let '(tasks, t') :=
      runTasks gameId userId schedule (AwaitGet ∘ ev_payload <$> events event, t) in
    (match promiseAll tasks with
     | Some (inl e) => Some (inl e)
     | Some (inr rs) =>
         Some (inr (Published (zip_with (λ ev r, mkResolved (ev_id ev) r) (events event) rs)))
     | None => None
     end, t')
  else (Some (inr (PassedThrough (events event))), t).
End ValidateGuess.

(** A schedule lets every one of [n] calls be served at both its
    requests. *)
Definition servedTwice (n : nat) (schedule : list nat) : Prop :=
  ∀ i, (i < n)%nat → (2 ≤ length (filter (λ j, j = i) schedule))%nat.

(** One call after the other, each served at its read and at its update
    before the next is served. *)
Definition sequentialSchedule (n : nat) : list nat := seq 0 n ≫= λ i, [i; i].

(** How far a call has come: 0 at its read, 1 at its update, 2 settled. *)
Definition stage (task : Task) : nat :=
  match task with
  | AwaitGet _ => 0
  | AwaitUpdate _ _ => 1
  | Fulfilled _ | Rejected _ => 2
  end.

Definition isFulfilled (task : Task) : Prop :=
  match task with Fulfilled _ => True | _ => False end.

Global Instance isFulfilled_dec task : Decision (isFulfilled task).
Proof. destruct task; simpl; apply _. Defined.

(** Number of calls that have written to the table. *)
Definition fulfilled (tasks : list Task) : nat := length (filter isFulfilled tasks).

(** Two guesses published at once on the channel of game [game-1]. *)
Definition samplePublish : LambdaEvent :=
  {| operation := "PUBLISH";
     identitySub := "user-1";
     channelPath := "/game/game-1";
     events := [mkEvent "e1" (mkInput ["G";"R"]); mkEvent "e2" (mkInput ["R";"G"])] |}.

(** ** Invariant of the calls of one publish *)

Definition storedTotal (item : GameItem) : Z := default 0 (totalGuesses item).

(** An item the game can hold after at most [k] writes of the publish:
    the secret of [item0] and a total between that of [item0] and [k]
    more. *)
Definition reach (item0 : GameItem) (k : Z) (it : GameItem) : Prop :=
  secretCode it = secretCode item0
  ∧ storedTotal item0 ≤ storedTotal it ≤ storedTotal item0 + k.

(** What a call for [payload] can be when [F] calls have written. *)
Definition taskOk (item0 : GameItem) (F : nat) (payload : ValidateGuessInput) (task : Task) : Prop :=
  match task with
  | AwaitGet p => p = payload
  | AwaitUpdate p it => p = payload ∧ reach item0 (Z.of_nat F) it
  | Fulfilled r =>
      ∃ it, r = resultOf payload it ∧ reach item0 (Z.of_nat F - 1) it ∧ (1 ≤ F)%nat
  | Rejected _ => False
  end.

Definition poolInv (gameId userId : string) (item0 : GameItem) (t0 : GamesTable)
    (payloads : list ValidateGuessInput) (st : list Task * GamesTable) : Prop :=
  length st.1 = length payloads
  ∧ (∃ cur, st.2 = <[(gameId, userId) := cur]> t0 ∧ reach item0 (Z.of_nat (fulfilled st.1)) cur)
  ∧ ∀ i task, st.1 !! i = Some task →
      ∃ payload, payloads !! i = Some payload ∧ taskOk item0 (fulfilled st.1) payload task.

(** * Properties *)

Example feedback_AAB_AAA : feedback ["A";"A";"A"] ["A";"A";"B"] = (2, 0).
Proof. reflexivity. Qed.

Example feedback_ABB_BBA : feedback ["B";"B";"A"] ["A";"B";"B"] = (1, 2).
Proof. reflexivity. Qed.

Example feedback_RGBY_RYGB : feedback ["R";"Y";"G";"B"] ["R";"G";"B";"Y"] = (1, 3).
Proof. reflexivity. Qed.

Section loops.
Implicit Types guess secretCode ids : list string.

Lemma exactStep_cons g s guess secretCode acc i :
  exactStep (g :: guess) (s :: secretCode) acc (S i) = exactStep guess secretCode acc i.
Proof. reflexivity. Qed.

Lemma exact_fold_shift g s guess secretCode acc k n :
  foldl (exactStep (g :: guess) (s :: secretCode)) acc (seq (S k) n)
  = foldl (exactStep guess secretCode) acc (seq k n).
Proof.
  revert acc k. induction n as [|n IH]; intros acc k; simpl; [done|].
  rewrite exactStep_cons. apply IH.
Qed.

Lemma exact_fold_nil guess acc k n :
  (k + n ≤ length guess)%nat →
  foldl (exactStep guess []) acc (seq k n) = acc.
Proof.
  revert acc k. induction n as [|n IH]; intros acc k Hk; simpl; [done|].
  rewrite IH by lia. unfold exactStep. rewrite lookup_nil.
  case_bool_decide as E; [|done].
  apply lookup_ge_None in E. lia.
Qed.

Lemma exact_fold_acc guess secretCode acc l :
  foldl (exactStep guess secretCode) acc l
  = acc + foldl (exactStep guess secretCode) 0 l.
Proof.
  revert acc. induction l as [|i l IH]; intros acc; simpl; [lia|].
  rewrite IH, (IH (exactStep _ _ 0 i)).
  unfold exactStep. case_bool_decide; lia.
Qed.

Lemma countExact_exactPairs guess secretCode :
  countExact guess secretCode = Z.of_nat (exactPairs guess secretCode).
Proof.
  unfold countExact. revert secretCode.
  induction guess as [|g guess IH]; intros [|s secretCode]; try done.
  - apply (exact_fold_nil (g :: guess) 0 0%nat). simpl; lia.
  - cbn [length seq foldl exactPairs].
    rewrite exact_fold_shift, exact_fold_acc, IH.
    unfold exactStep; simpl.
    rewrite !bool_decide_decide.
    destruct (decide (g = s)) as [->|Hne].
    + rewrite decide_True by done. lia.
    + rewrite decide_False by congruence. lia.
Qed.

Lemma colorLoop_acc guess ids c :
  (foldl colorStep (c, ids) guess).1 = c + Z.of_nat (rawMatches guess ids).
Proof.
  revert ids c. induction guess as [|g guess IH]; intros ids c; simpl; [lia|].
  unfold colorStep at 2; simpl.
  destruct (indexOf ids g) as [j|]; rewrite IH; simpl; lia.
Qed.

Lemma countColor_rawMatches guess secretCode :
  countColor guess secretCode = Z.of_nat (rawMatches guess secretCode).
Proof. unfold countColor, colorLoop. rewrite colorLoop_acc. lia. Qed.

Lemma exactPairs_length guess secretCode :
  (exactPairs guess secretCode ≤ length guess)%nat.
Proof.
  revert secretCode. induction guess as [|g guess IH]; intros [|s ss]; simpl; try lia.
  specialize (IH ss). case_bool_decide; lia.
Qed.

Lemma exactPairs_refl guess : exactPairs guess guess = length guess.
Proof.
  induction guess as [|g guess IH]; simpl; [done|].
  rewrite bool_decide_true by done. lia.
Qed.

Lemma rawMatches_length guess ids : (rawMatches guess ids ≤ length guess)%nat.
Proof.
  revert ids. induction guess as [|g guess IH]; intros ids; simpl; [lia|].
  destruct (indexOf ids g) as [j|]; [specialize (IH (<[j:=""]> ids))|specialize (IH ids)]; lia.
Qed.
End loops.

Section multisets.
Implicit Types guess secret ids : list string.
Implicit Types X Y : gmultiset string.

Lemma indexOf_Some ids g j : indexOf ids g = Some j → ids !! j = Some g.
Proof.
  unfold indexOf. intros H.
  apply fmap_Some in H as [[i y] [Hfind ->]].
  apply list_find_Some in Hfind as (Hi & -> & _). exact Hi.
Qed.

Lemma indexOf_None ids g : indexOf ids g = None → g ∉ ids.
Proof.
  unfold indexOf. intros H. apply fmap_None in H.
  intros Hin.
  destruct (list_find_elem_of (λ y, y = g) ids g Hin eq_refl) as [? Hs].
  rewrite H in Hs. discriminate.
Qed.

Lemma indexOf_elem_of ids g : g ∈ ids → is_Some (indexOf ids g).
Proof.
  intros Hin. destruct (indexOf ids g) eqn:E; [eauto|].
  by apply indexOf_None in E.
Qed.

Lemma pegs_lookup ids j g :
  ids !! j = Some g → pegs ids = {[+ g +]} ⊎ pegs (delete j ids).
Proof.
  intros H. unfold pegs.
  rewrite (delete_Permutation ids j g H) at 1.
  apply list_to_set_disj_cons.
Qed.

Lemma pegs_insert ids j g x :
  ids !! j = Some g → pegs (<[j := x]> ids) = {[+ x +]} ⊎ pegs (delete j ids).
Proof.
  revert j. induction ids as [|y ids IH]; intros [|j] H; simplify_eq/=.
  - unfold pegs. by rewrite list_to_set_disj_cons.
  - unfold pegs in *. rewrite !list_to_set_disj_cons, (IH j H).
    multiset_solver.
Qed.

(** The multiplicity of a peg is its number of occurrences, so a peg is in
    the intersection as often as the lesser of its two occurrence counts. *)
Lemma multiplicity_pegs ids g :
  multiplicity g (pegs ids) = length (filter (λ y, y = g) ids).
Proof.
  unfold pegs. induction ids as [|y ids IH]; [done|].
  rewrite list_to_set_disj_cons, multiplicity_disj_union, multiplicity_singleton, IH.
  rewrite filter_cons.
  destruct (decide (g = y)) as [->|Hne].
  - by rewrite decide_True.
  - by rewrite decide_False by congruence.
Qed.

Lemma multiplicity_shared secret guess g :
  multiplicity g (pegs secret ∩ pegs guess)
  = (length (filter (λ y, y = g) secret) `min` length (filter (λ y, y = g) guess))%nat.
Proof. by rewrite multiplicity_intersection, !multiplicity_pegs. Qed.

Lemma multiplicity_pegs_0 ids g : g ∉ ids → multiplicity g (pegs ids) = 0%nat.
Proof.
  intros H. unfold pegs.
  destruct (multiplicity g (list_to_set_disj ids)) eqn:E; [done|].
  exfalso. apply H. apply elem_of_list_to_set_disj.
  apply elem_of_multiplicity. lia.
Qed.

(** A peg absent from one side adds nothing to the intersection. *)
Lemma inter_absent_r X Y g :
  multiplicity g X = 0%nat → X ∩ ({[+ g +]} ⊎ Y) = X ∩ Y.
Proof.
  intros H. apply gmultiset_eq. intros x.
  rewrite !multiplicity_intersection, multiplicity_disj_union, multiplicity_singleton.
  case_decide; subst; lia.
Qed.

Lemma inter_absent_l X Y g :
  multiplicity g Y = 0%nat → ({[+ g +]} ⊎ X) ∩ Y = X ∩ Y.
Proof.
  intros H. rewrite !(comm_L (∩) _ Y). by apply inter_absent_r.
Qed.

(** A peg present on both sides is shared once. *)
Lemma inter_common X Y g :
  ({[+ g +]} ⊎ X) ∩ ({[+ g +]} ⊎ Y) = {[+ g +]} ⊎ (X ∩ Y).
Proof. by rewrite <- gmultiset_disj_union_intersection_l. Qed.

Lemma size_inter_mono_l X Y g : (size (X ∩ Y) ≤ size (({[+ g +]} ⊎ X) ∩ Y))%nat.
Proof. apply gmultiset_subseteq_size. multiset_solver. Qed.

Lemma size_inter_mono_r X Y g : (size (X ∩ Y) ≤ size (X ∩ ({[+ g +]} ⊎ Y)))%nat.
Proof. apply gmultiset_subseteq_size. multiset_solver. Qed.

(** The exact matches are among the shared pegs. *)
Lemma exactPairs_le_shared guess secret :
  (exactPairs guess secret ≤ sharedPegs secret guess)%nat.
Proof.
  unfold sharedPegs, pegs. revert secret.
  induction guess as [|g guess IH]; intros [|s secret]; simpl; try lia.
  specialize (IH secret). rewrite ?list_to_set_disj_cons.
  case_bool_decide as E.
  - subst s. rewrite inter_common, gmultiset_size_disj_union, gmultiset_size_singleton. lia.
  - etrans; [apply IH|]. etrans; [apply (size_inter_mono_l _ _ s)|].
    apply size_inter_mono_r.
Qed.

(** The second loop counts at least the shared pegs, whatever the pegs
    are. *)
Lemma shared_le_rawMatches guess ids :
  (sharedPegs ids guess ≤ rawMatches guess ids)%nat.
Proof.
  unfold sharedPegs. revert ids.
  induction guess as [|g guess IH]; intros ids; simpl.
  - unfold pegs at 2. rewrite list_to_set_disj_nil, (right_absorb_L ∅ (∩)).
    by rewrite gmultiset_size_empty.
  - unfold pegs at 2. rewrite list_to_set_disj_cons. fold (pegs guess).
    destruct (indexOf ids g) as [j|] eqn:E.
    + apply indexOf_Some in E.
      specialize (IH (<[j := ""]> ids)).
      rewrite (pegs_insert ids j g "" E) in IH.
      rewrite (pegs_lookup ids j g E), inter_common,
        gmultiset_size_disj_union, gmultiset_size_singleton.
      pose proof (size_inter_mono_l (pegs (delete j ids)) (pegs guess) ""). lia.
    + apply indexOf_None, multiplicity_pegs_0 in E.
      rewrite inter_absent_r by done. apply IH.
Qed.

(** Without an empty-string peg in the guess, it counts exactly the shared
    pegs. *)
Lemma rawMatches_shared guess ids :
  "" ∉ guess → rawMatches guess ids = sharedPegs ids guess.
Proof.
  unfold sharedPegs. revert ids.
  induction guess as [|g guess IH]; intros ids Hne; simpl.
  - unfold pegs at 2. rewrite list_to_set_disj_nil, (right_absorb_L ∅ (∩)).
    symmetry. apply gmultiset_size_empty.
  - apply not_elem_of_cons in Hne as [Hg Hne].
    unfold pegs at 2. rewrite list_to_set_disj_cons. fold (pegs guess).
    destruct (indexOf ids g) as [j|] eqn:E.
    + apply indexOf_Some in E.
      rewrite (IH (<[j := ""]> ids) Hne), (pegs_insert ids j g "" E).
      rewrite inter_absent_l by (by apply multiplicity_pegs_0).
      rewrite (pegs_lookup ids j g E), inter_common,
        gmultiset_size_disj_union, gmultiset_size_singleton. lia.
    + apply indexOf_None, multiplicity_pegs_0 in E.
      rewrite inter_absent_r by done. by apply IH.
Qed.

(** Hence the second loop never counts fewer pegs than the first. *)
Lemma exactPairs_le_rawMatches guess secret :
  (exactPairs guess secret ≤ rawMatches guess secret)%nat.
Proof.
  etrans; [apply exactPairs_le_shared|apply shared_le_rawMatches].
Qed.
End multisets.

(** ** The evaluator *)

Section evaluator.
Implicit Types guess secret : list string.

Lemma feedback_unfold guess secret :
  feedback guess secret
  = (Z.of_nat (exactPairs guess secret),
     Z.of_nat (rawMatches guess secret) - Z.of_nat (exactPairs guess secret)).
Proof.
  unfold feedback. by rewrite countExact_exactPairs, countColor_rawMatches.
Qed.

(** The consumed slot holds the empty string afterwards, so a later
    empty-string peg finds a slot at or before it, and exactly it when no
    earlier slot holds the empty string. *)
Lemma indexOf_consumed ids j g :
  ids !! j = Some g →
  ∃ k, indexOf (<[j := ""]> ids) "" = Some k ∧ (k ≤ j)%nat
       ∧ ("" ∉ take j ids → k = j).
Proof.
  intros Hj.
  assert (Hlt : (j < length ids)%nat) by (by eapply lookup_lt_Some).
  assert (Hin : "" ∈ <[j := ""]> ids).
  { apply list_elem_of_lookup. exists j. by apply list_lookup_insert_eq. }
  destruct (indexOf_elem_of _ _ Hin) as [k Hk]. exists k.
  unfold indexOf in Hk. apply fmap_Some in Hk as [[k' y] [Hfind Hk']].
  simpl in Hk'. subst k'. split.
  { unfold indexOf. by rewrite Hfind. }
  apply list_find_Some in Hfind as (Hlook & -> & Hfirst).
  assert (Hle : (k ≤ j)%nat).
  { destruct (decide (k ≤ j)%nat) as [|Hgt]; [done|].
    exfalso. eapply (Hfirst j ""); [by apply list_lookup_insert_eq|lia|done]. }
  split; [done|].
  intros Hnot. destruct (decide (k = j)) as [|Hkj]; [done|].
  exfalso. apply Hnot. apply list_elem_of_lookup. exists k.
  rewrite lookup_take_lt by lia.
  by rewrite list_lookup_insert_ne in Hlook by done.
Qed.
End evaluator.

(** C7: for sequences of equal length the black pegs and the white pegs are
    both non-negative and together do not exceed the length of the secret. *)
Theorem feedback_bounds (secret guess : list string) :
  length guess = length secret →
  0 ≤ (feedback guess secret).1
  ∧ 0 ≤ (feedback guess secret).2
  ∧ (feedback guess secret).1 + (feedback guess secret).2 ≤ Z.of_nat (length secret).
Proof.
  intros Hlen. rewrite feedback_unfold. simpl.
  pose proof (exactPairs_le_rawMatches guess secret).
  pose proof (rawMatches_length guess secret).
  lia.
Qed.

Lemma feedback_bounds_witness :
  length ["R";"Y";"G";"B"] = length ["R";"G";"B";"Y"]
  ∧ 0 ≤ (feedback ["R";"Y";"G";"B"] ["R";"G";"B";"Y"]).1
  ∧ 0 ≤ (feedback ["R";"Y";"G";"B"] ["R";"G";"B";"Y"]).2
  ∧ (feedback ["R";"Y";"G";"B"] ["R";"G";"B";"Y"]).1
    + (feedback ["R";"Y";"G";"B"] ["R";"G";"B";"Y"]).2 ≤ 4.
Proof.
  split; [reflexivity|].
  apply (feedback_bounds ["R";"G";"B";"Y"] ["R";"Y";"G";"B"]). reflexivity.
Defined.

(** C8: a guess identical to the secret scores the length of the sequence in
    black pegs and no white peg.  This holds for every sequence, the empty
    one and those with empty-string pegs included. *)
Theorem feedback_perfect (s : list string) :
  feedback s s = (Z.of_nat (length s), 0).
Proof.
  rewrite feedback_unfold.
  pose proof (exactPairs_le_rawMatches s s) as H1.
  pose proof (rawMatches_length s s) as H2.
  rewrite exactPairs_refl in *. f_equal; lia.
Qed.

(** C6, as stated, fails: for secret [A,B,B] and guess [B,B,A] the middle
    position is an exact match, so the feedback is (1, 2) and not (0, 3); and
    with an empty-string peg in the guess the white pegs exceed the multiset
    count. *)
Lemma feedback_multiset_counterexample :
  feedback ["B";"B";"A"] ["A";"B";"B"] = (1, 2)
  ∧ feedback ["B";"B";"A"] ["A";"B";"B"] ≠ (0, 3)
  ∧ length ["A";""] = length ["A";"B"]
  ∧ (feedback ["A";""] ["A";"B"]).2 = 1
  ∧ specColorMatches ["A";"B"] ["A";""] = 0.
Proof. repeat split; try reflexivity. discriminate. Qed.

(** C6, amended: for sequences of equal length whose guess holds no
    empty-string peg, the white pegs are the size of the multiset
    intersection of secret and guess minus the black pegs; secret [A,A,B]
    against guess [A,A,A] gives (2, 0) and secret [A,B,B] against guess
    [B,B,A] gives (1, 2). *)
Theorem feedback_whitePegs_multiset :
  (∀ secret guess : list string,
     length guess = length secret → "" ∉ guess →
     (feedback guess secret).2 = specColorMatches secret guess)
  ∧ feedback ["A";"A";"A"] ["A";"A";"B"] = (2, 0)
  ∧ feedback ["B";"B";"A"] ["A";"B";"B"] = (1, 2).
Proof.
  split; [|split; reflexivity].
  intros secret guess _ Hne. unfold specColorMatches.
  rewrite feedback_unfold, countExact_exactPairs. simpl.
  by rewrite (rawMatches_shared guess secret Hne).
Qed.

Lemma feedback_whitePegs_multiset_witness :
  length ["R";"Y";"G";"B"] = length ["R";"G";"B";"Y"]
  ∧ ("" ∉ ["R";"Y";"G";"B"])
  ∧ (feedback ["R";"Y";"G";"B"] ["R";"G";"B";"Y"]).2
    = specColorMatches ["R";"G";"B";"Y"] ["R";"Y";"G";"B"].
Proof.
  assert (Hne : "" ∉ ["R";"Y";"G";"B"]).
  { intros H. repeat (apply elem_of_cons in H as [H|H]; [discriminate|]).
    by apply elem_of_nil in H. }
  split; [reflexivity|]. split; [exact Hne|].
  apply (proj1 feedback_whitePegs_multiset); [reflexivity|exact Hne].
Defined.

(** C10: the consumed slot is overwritten with the empty string, so an
    empty-string guess peg finds a slot after any consumption (the consumed
    slot itself when no earlier slot is empty); secret [A,B] against guess
    [A,""] therefore counts 2 where the multiset intersection has 1 element;
    and when neither sequence holds an empty-string peg the count of the
    colour pass is the size of the multiset intersection. *)
Theorem colorPass_empty_string_marker :
  (∀ (ids : list string) (j : nat) (g : string),
     ids !! j = Some g →
     ∃ k, indexOf (<[j := ""]> ids) "" = Some k ∧ (k ≤ j)%nat
          ∧ ("" ∉ take j ids → k = j))
  ∧ (colorLoop ["A"] ["A";"B"] = (1, ["";"B"])
     ∧ indexOf ["";"B"] "" = Some 0%nat
     ∧ countColor ["A";""] ["A";"B"] = 2
     ∧ sharedPegs ["A";"B"] ["A";""] = 1%nat)
  ∧ (∀ secret guess : list string,
       "" ∉ secret → "" ∉ guess →
       countColor guess secret = Z.of_nat (sharedPegs secret guess)
       ∧ (feedback guess secret).2 = specColorMatches secret guess).
Proof.
  split; [exact indexOf_consumed|].
  split; [repeat split; reflexivity|].
  intros secret guess _ Hne.
  unfold specColorMatches.
  rewrite feedback_unfold, countExact_exactPairs, countColor_rawMatches. simpl.
  by rewrite (rawMatches_shared guess secret Hne).
Qed.

Lemma colorPass_empty_string_marker_witness :
  ["A";"B"] !! 0%nat = Some "A"
  ∧ ("" ∉ ["A";"B";"B"]) ∧ ("" ∉ ["B";"B";"A"])
  ∧ (∃ k, indexOf (<[0%nat := ""]> ["A";"B"]) "" = Some k ∧ (k ≤ 0)%nat
          ∧ ("" ∉ take 0 ["A";"B"] → k = 0%nat))
  ∧ countColor ["B";"B";"A"] ["A";"B";"B"] = Z.of_nat (sharedPegs ["A";"B";"B"] ["B";"B";"A"])
  ∧ (feedback ["B";"B";"A"] ["A";"B";"B"]).2 = specColorMatches ["A";"B";"B"] ["B";"B";"A"].
Proof.
  assert (H1 : "" ∉ ["A";"B";"B"]).
  { intros H. repeat (apply elem_of_cons in H as [H|H]; [discriminate|]).
    by apply elem_of_nil in H. }
  assert (H2 : "" ∉ ["B";"B";"A"]).
  { intros H. repeat (apply elem_of_cons in H as [H|H]; [discriminate|]).
    by apply elem_of_nil in H. }
  split; [reflexivity|]. split; [exact H1|]. split; [exact H2|].
  split.
  - apply (proj1 colorPass_empty_string_marker ["A";"B"] 0%nat "A"). reflexivity.
  - apply (proj2 (proj2 colorPass_empty_string_marker) ["A";"B";"B"] ["B";"B";"A"] H1 H2).
Defined.

(** ** The controller *)

Section controller.
Implicit Types (payload : ValidateGuessInput) (item : GameItem) (t : GamesTable).
Implicit Types gameId userId : string.

Lemma processEvent_not_found payload gameId userId t :
  t !! (gameId, userId) = None →
  processEvent payload gameId userId t = inl (Error "Game not found").
Proof.
  intros H. unfold processEvent, mbind, M_bind, getItem. by rewrite H.
Qed.

Lemma processEvent_found payload gameId userId t item :
  t !! (gameId, userId) = Some item →
  processEvent payload gameId userId t
  = inr (<[(gameId, userId) := itemAfter payload item]> t, resultOf payload item).
Proof.
  intros H. unfold processEvent, mbind, M_bind, getItem. rewrite H.
  unfold resultOf, itemAfter, statusAfter, guessNumberOf.
  destruct (feedback (guess payload) (secretCode item)) as [cp cc] eqn:E.
  unfold updateItem, mret, M_ret. simpl.
  f_equal. f_equal.
  apply map_eq. intros k. rewrite lookup_alter, lookup_insert.
  case_decide; subst; [by rewrite H|done].
Qed.

Lemma processEvent_inr payload gameId userId t t' r :
  processEvent payload gameId userId t = inr (t', r) →
  ∃ item, t !! (gameId, userId) = Some item
          ∧ t' = <[(gameId, userId) := itemAfter payload item]> t
          ∧ r = resultOf payload item.
Proof.
  intros H. destruct (t !! (gameId, userId)) as [item|] eqn:E.
  - rewrite (processEvent_found _ _ _ _ _ E) in H. simplify_eq. eauto.
  - rewrite (processEvent_not_found _ _ _ _ E) in H. discriminate.
Qed.

Lemma nextStatus_lost cp secret n : nextStatus cp secret n = lost → 10 ≤ n.
Proof. unfold nextStatus. repeat case_bool_decide; done. Qed.

Lemma nextStatus_capped cp secret n : 10 ≤ n → nextStatus cp secret n ≠ playing.
Proof. unfold nextStatus. repeat case_bool_decide; done. Qed.

Lemma guessNumberOf_itemAfter payload item :
  guessNumberOf (itemAfter payload item) = guessNumberOf item + 1.
Proof. reflexivity. Qed.

(** In a run of successive guesses the guess numbers increase by one. *)
Lemma processEvents_guessNumber payloads gameId userId t t' rs item :
  processEvents payloads gameId userId t = inr (t', rs) →
  t !! (gameId, userId) = Some item →
  ∀ j rj, rs !! j = Some rj →
    r_guessNumber rj = guessNumberOf item + Z.of_nat j
    ∧ r_gameStatus rj = nextStatus (r_blackPegs rj) (secretCode item) (r_guessNumber rj).
Proof.
  revert t t' rs item.
  induction payloads as [|payload payloads IH]; intros t t' rs item Hrun Hitem j rj Hj.
  - unfold processEvents, mret, M_ret in Hrun. injection Hrun as <- <-.
    by rewrite lookup_nil in Hj.
  - cbn [processEvents] in Hrun. unfold mbind, M_bind in Hrun.
    rewrite (processEvent_found _ _ _ _ _ Hitem) in Hrun.
    fold (@mbind M _) in Hrun.
    destruct (processEvents payloads gameId userId _) as [e|[t2 rs']] eqn:Hrest;
      [discriminate|].
    unfold mret, M_ret in Hrun. simplify_eq.
    destruct j as [|j]; simpl in Hj.
    + simplify_eq. simpl. split; [lia|]. reflexivity.
    + eapply IH in Hj as [Hn Hs]; [|exact Hrest|apply lookup_insert_eq].
      rewrite guessNumberOf_itemAfter in Hn. split; [lia|exact Hs].
Qed.
End controller.

Section runs.
Implicit Types (payload : ValidateGuessInput) (item : GameItem) (t : GamesTable).

Lemma processEvents_cons payload payloads gameId userId t item :
  t !! (gameId, userId) = Some item →
  processEvents (payload :: payloads) gameId userId t
  = match processEvents payloads gameId userId
            (<[(gameId, userId) := itemAfter payload item]> t) with
    | inl e => inl e
    | inr (t', rs) => inr (t', resultOf payload item :: rs)
    end.
Proof.
  intros H. cbn [processEvents]. unfold mbind, M_bind.
  rewrite (processEvent_found _ _ _ _ _ H).
  by destruct (processEvents payloads gameId userId _) as [e|[t' rs]].
Qed.

Lemma sampleTable_lookup item : sampleTable item !! ("game-1", "user-1") = Some item.
Proof. apply lookup_singleton_eq. Qed.
End runs.

(** C1, as stated, fails: a guess against a game stored as won is accepted;
    it is stored as guess 2 and the stored status goes back to playing. *)
Lemma ended_game_counterexample :
  gameStatus sampleWon = won
  ∧ guesses sampleWon !! 2 = None
  ∧ ∃ t' r item',
      processEvent (mkInput ["G";"R"]) "game-1" "user-1" (sampleTable sampleWon) = inr (t', r)
      ∧ (∀ e, processEvent (mkInput ["G";"R"]) "game-1" "user-1" (sampleTable sampleWon) ≠ inl e)
      ∧ r_gameStatus r = playing
      ∧ t' !! ("game-1", "user-1") = Some item'
      ∧ gameStatus item' = playing
      ∧ totalGuesses item' = Some 2
      ∧ guesses item' !! 2 = Some (mkGuessAttr ["G";"R"] 0 2).
Proof.
  split; [reflexivity|]. split; [reflexivity|].
  eexists _, _, _.
  rewrite (processEvent_found _ _ _ _ _ (sampleTable_lookup sampleWon)).
  split; [reflexivity|]. split; [discriminate|]. split; [reflexivity|].
  split; [apply lookup_insert_eq|].
  split; [reflexivity|]. split; [reflexivity|].
  apply lookup_insert_eq.
Qed.

(** C1, amended: for a game whose stored status is won or lost and whose
    next guess number the update accepts (0 up to the largest safe
    integer), [processEvent] does not look at the stored status: it
    succeeds, stores the guess with its feedback under the next guess
    number, sets [totalGuesses] to that number and overwrites the stored
    status with the outcome of the status rule. *)
Theorem processEvent_on_ended_game (payload : ValidateGuessInput) (gameId userId : string)
    (t : GamesTable) (item : GameItem) :
  t !! (gameId, userId) = Some item →
  gameStatus item = won ∨ gameStatus item = lost →
  updateAccepted (guessNumberOf item) →
  ∃ t' r item',
    processEvent payload gameId userId t = inr (t', r)
    ∧ t' !! (gameId, userId) = Some item'
    ∧ secretCode item' = secretCode item
    ∧ totalGuesses item' = Some (guessNumberOf item)
    ∧ guesses item' !! guessNumberOf item
      = Some (mkGuessAttr (guess payload) (r_blackPegs r) (r_whitePegs r))
    ∧ (r_blackPegs r, r_whitePegs r) = feedback (guess payload) (secretCode item)
    ∧ r_guessNumber r = guessNumberOf item
    ∧ gameStatus item' = r_gameStatus r
    ∧ r_gameStatus r = nextStatus (r_blackPegs r) (secretCode item) (guessNumberOf item).
Proof.
  intros Hitem _ _. eexists _, _, _.
  rewrite (processEvent_found _ _ _ _ _ Hitem).
  split; [reflexivity|]. split; [apply lookup_insert_eq|].
  split; [reflexivity|]. split; [reflexivity|].
  split; [apply lookup_insert_eq|].
  split; [simpl; symmetry; apply surjective_pairing|].
  repeat split.
Qed.

Lemma processEvent_on_ended_game_witness :
  sampleTable sampleWon !! ("game-1", "user-1") = Some sampleWon
  ∧ (gameStatus sampleWon = won ∨ gameStatus sampleWon = lost)
  ∧ updateAccepted (guessNumberOf sampleWon)
  ∧ ∃ t' r item',
    processEvent (mkInput ["G";"R"]) "game-1" "user-1" (sampleTable sampleWon) = inr (t', r)
    ∧ t' !! ("game-1", "user-1") = Some item'
    ∧ secretCode item' = secretCode sampleWon
    ∧ totalGuesses item' = Some (guessNumberOf sampleWon)
    ∧ guesses item' !! guessNumberOf sampleWon
      = Some (mkGuessAttr ["G";"R"] (r_blackPegs r) (r_whitePegs r))
    ∧ (r_blackPegs r, r_whitePegs r) = feedback ["G";"R"] (secretCode sampleWon)
    ∧ r_guessNumber r = guessNumberOf sampleWon
    ∧ gameStatus item' = r_gameStatus r
    ∧ r_gameStatus r = nextStatus (r_blackPegs r) (secretCode sampleWon) (guessNumberOf sampleWon).
Proof.
  assert (Hacc : updateAccepted (guessNumberOf sampleWon))
    by (split; vm_compute; discriminate).
  split; [apply sampleTable_lookup|]. split; [left; reflexivity|]. split; [exact Hacc|].
  apply (processEvent_on_ended_game (mkInput ["G";"R"]) "game-1" "user-1"
           (sampleTable sampleWon) sampleWon).
  - apply sampleTable_lookup.
  - left; reflexivity.
  - exact Hacc.
Defined.

(** C2, as stated, fails: a guess of one peg against a secret of two is
    scored (one black peg) and stored; no error is returned. *)
Lemma length_mismatch_counterexample :
  length ["R"] ≠ length (secretCode sampleFresh)
  ∧ ∃ t' r,
      processEvent (mkInput ["R"]) "game-1" "user-1" (sampleTable sampleFresh) = inr (t', r)
      ∧ (∀ e, processEvent (mkInput ["R"]) "game-1" "user-1" (sampleTable sampleFresh) ≠ inl e)
      ∧ r_blackPegs r = 1 ∧ r_whitePegs r = 0 ∧ r_gameStatus r = playing.
Proof.
  split; [discriminate|]. eexists _, _.
  rewrite (processEvent_found _ _ _ _ _ (sampleTable_lookup sampleFresh)).
  split; [reflexivity|]. split; [discriminate|]. repeat split.
Qed.

(** C2, amended: [processEvent] makes no length check: a guess whose length
    differs from the secret's, against a stored game whose next guess
    number the update accepts, is scored like any other (the first loop
    compares the positions the two sequences share, the second loop looks
    every guess peg up) and a response with that score is returned. *)
Theorem processEvent_length_mismatch (payload : ValidateGuessInput) (gameId userId : string)
    (t : GamesTable) (item : GameItem) :
  t !! (gameId, userId) = Some item →
  length (guess payload) ≠ length (secretCode item) →
  updateAccepted (guessNumberOf item) →
  ∃ t' r,
    processEvent payload gameId userId t = inr (t', r)
    ∧ r_guess r = guess payload
    ∧ r_blackPegs r = Z.of_nat (exactPairs (guess payload) (secretCode item))
    ∧ r_whitePegs r = Z.of_nat (rawMatches (guess payload) (secretCode item))
                      - Z.of_nat (exactPairs (guess payload) (secretCode item)).
Proof.
  intros Hitem _ _. eexists _, _.
  rewrite (processEvent_found _ _ _ _ _ Hitem).
  split; [reflexivity|]. split; [reflexivity|].
  unfold resultOf. cbn [r_blackPegs r_whitePegs]. by rewrite feedback_unfold.
Qed.

Lemma processEvent_length_mismatch_witness :
  sampleTable sampleFresh !! ("game-1", "user-1") = Some sampleFresh
  ∧ length ["R";"G";"B"] ≠ length (secretCode sampleFresh)
  ∧ updateAccepted (guessNumberOf sampleFresh)
  ∧ ∃ t' r,
      processEvent (mkInput ["R";"G";"B"]) "game-1" "user-1" (sampleTable sampleFresh) = inr (t', r)
      ∧ r_guess r = ["R";"G";"B"]
      ∧ r_blackPegs r = Z.of_nat (exactPairs ["R";"G";"B"] (secretCode sampleFresh))
      ∧ r_whitePegs r = Z.of_nat (rawMatches ["R";"G";"B"] (secretCode sampleFresh))
                        - Z.of_nat (exactPairs ["R";"G";"B"] (secretCode sampleFresh)).
Proof.
  assert (Hlen : length ["R";"G";"B"] ≠ length (secretCode sampleFresh)) by discriminate.
  assert (Hacc : updateAccepted (guessNumberOf sampleFresh))
    by (split; vm_compute; discriminate).
  split; [apply sampleTable_lookup|]. split; [exact Hlen|]. split; [exact Hacc|].
  apply (processEvent_length_mismatch (mkInput ["R";"G";"B"]) "game-1" "user-1"
           (sampleTable sampleFresh) sampleFresh (sampleTable_lookup sampleFresh) Hlen Hacc).
Defined.

(** C3, as stated, fails: a new game is won at its first guess, and the
    next guess, a miss, puts the status back to playing, in the response
    and in the table. *)
Lemma status_revert_counterexample :
  gameStatus sampleFresh = playing
  ∧ ∃ t' r1 r2 item',
      processEvents [mkInput ["R";"G"]; mkInput ["G";"R"]] "game-1" "user-1"
        (sampleTable sampleFresh) = inr (t', [r1; r2])
      ∧ r_gameStatus r1 = won
      ∧ r_gameStatus r2 = playing
      ∧ t' !! ("game-1", "user-1") = Some item'
      ∧ gameStatus item' = playing.
Proof.
  split; [reflexivity|]. eexists _, _, _, _.
  rewrite (processEvents_cons _ _ _ _ _ _ (sampleTable_lookup sampleFresh)).
  rewrite (processEvents_cons _ _ _ _ _ _ (lookup_insert_eq _ _ _)).
  split; [reflexivity|]. split; [reflexivity|]. split; [reflexivity|].
  split; [apply lookup_insert_eq|reflexivity].
Qed.

(** C3, amended: in every run of successive guesses on one game, once a
    guess has been numbered 9 or more (which is the case of every guess
    answered with lost, and of a guess answered with won at the ninth guess
    or later) no later guess is answered with playing.  A status won reached
    at the eighth guess or earlier is not protected: every guess numbered
    below 10 that is not a full exact match is answered with playing,
    whatever was answered before. *)
Theorem status_capped (payloads : list ValidateGuessInput) (gameId userId : string)
    (t t' : GamesTable) (rs : list GuessResult) :
  processEvents payloads gameId userId t = inr (t', rs) →
  (∀ i j ri rj,
     (i < j)%nat → rs !! i = Some ri → rs !! j = Some rj →
     r_gameStatus ri = lost ∨ 9 ≤ r_guessNumber ri →
     r_gameStatus rj ≠ playing)
  ∧ (∀ item j rj,
       t !! (gameId, userId) = Some item → rs !! j = Some rj →
       r_guessNumber rj < 10 →
       r_blackPegs rj ≠ Z.of_nat (length (secretCode item)) →
       r_gameStatus rj = playing).
Proof.
  intros Hrun. split.
  - intros i j ri rj Hij Hi Hj Hcap.
    destruct (t !! (gameId, userId)) as [item|] eqn:Hitem.
    + destruct (processEvents_guessNumber _ _ _ _ _ _ _ Hrun Hitem i ri Hi) as [Hni Hsi].
      destruct (processEvents_guessNumber _ _ _ _ _ _ _ Hrun Hitem j rj Hj) as [Hnj Hsj].
      assert (9 ≤ r_guessNumber ri) as Hnine.
      { destruct Hcap as [Hlost|]; [|done].
        rewrite Hlost in Hsi. symmetry in Hsi. apply nextStatus_lost in Hsi. lia. }
      rewrite Hsj. apply nextStatus_capped. lia.
    + destruct payloads as [|payload payloads].
      * unfold processEvents, mret, M_ret in Hrun. injection Hrun as <- <-.
        by rewrite lookup_nil in Hi.
      * cbn [processEvents] in Hrun. unfold mbind, M_bind in Hrun.
        rewrite (processEvent_not_found _ _ _ _ Hitem) in Hrun. discriminate.
  - intros item j rj Hitem Hj Hlow Hmiss.
    destruct (processEvents_guessNumber _ _ _ _ _ _ _ Hrun Hitem j rj Hj) as [_ Hsj].
    rewrite Hsj. unfold nextStatus.
    rewrite bool_decide_false by done. by rewrite bool_decide_false by lia.
Qed.

Lemma status_capped_witness :
  (∃ t' r1 r2,
     processEvents [mkInput ["R";"G"]; mkInput ["G";"R"]] "game-1" "user-1"
       (sampleTable sampleEighth) = inr (t', [r1; r2])
     ∧ (0 < 1)%nat
     ∧ [r1; r2] !! 0%nat = Some r1
     ∧ [r1; r2] !! 1%nat = Some r2
     ∧ r_gameStatus r1 = won
     ∧ (r_gameStatus r1 = lost ∨ 9 ≤ r_guessNumber r1)
     ∧ r_gameStatus r2 ≠ playing)
  ∧ (∃ t' r1 r2,
       processEvents [mkInput ["R";"G"]; mkInput ["G";"R"]] "game-1" "user-1"
         (sampleTable sampleSeventh) = inr (t', [r1; r2])
       ∧ sampleTable sampleSeventh !! ("game-1", "user-1") = Some sampleSeventh
       ∧ [r1; r2] !! 1%nat = Some r2
       ∧ r_gameStatus r1 = won
       ∧ r_guessNumber r2 < 10
       ∧ r_blackPegs r2 ≠ Z.of_nat (length (secretCode sampleSeventh))
       ∧ r_gameStatus r2 = playing).
Proof.
  split.
  - eexists _, _, _.
    assert (Hrun : processEvents [mkInput ["R";"G"]; mkInput ["G";"R"]] "game-1" "user-1"
                     (sampleTable sampleEighth)
                   = inr (<[("game-1", "user-1") :=
                              itemAfter (mkInput ["G";"R"])
                                (itemAfter (mkInput ["R";"G"]) sampleEighth)]>
                            (<[("game-1", "user-1") :=
                                 itemAfter (mkInput ["R";"G"]) sampleEighth]>
                               (sampleTable sampleEighth)),
                          [resultOf (mkInput ["R";"G"]) sampleEighth;
                           resultOf (mkInput ["G";"R"])
                             (itemAfter (mkInput ["R";"G"]) sampleEighth)])).
    { rewrite (processEvents_cons _ _ _ _ _ _ (sampleTable_lookup sampleEighth)).
      rewrite (processEvents_cons _ _ _ _ _ _ (lookup_insert_eq _ _ _)).
      reflexivity. }
    assert (Hnine : r_gameStatus (resultOf (mkInput ["R";"G"]) sampleEighth) = lost
                    ∨ 9 ≤ r_guessNumber (resultOf (mkInput ["R";"G"]) sampleEighth))
      by (right; vm_compute; discriminate).
    split; [exact Hrun|]. split; [lia|]. split; [reflexivity|]. split; [reflexivity|].
    split; [reflexivity|]. split; [exact Hnine|].
    apply (proj1 (status_capped _ _ _ _ _ _ Hrun) 0%nat 1%nat
             (resultOf (mkInput ["R";"G"]) sampleEighth)
             (resultOf (mkInput ["G";"R"]) (itemAfter (mkInput ["R";"G"]) sampleEighth)));
      [lia|reflexivity|reflexivity|exact Hnine].
  - eexists _, _, _.
    assert (Hrun : processEvents [mkInput ["R";"G"]; mkInput ["G";"R"]] "game-1" "user-1"
                     (sampleTable sampleSeventh)
                   = inr (<[("game-1", "user-1") :=
                              itemAfter (mkInput ["G";"R"])
                                (itemAfter (mkInput ["R";"G"]) sampleSeventh)]>
                            (<[("game-1", "user-1") :=
                                 itemAfter (mkInput ["R";"G"]) sampleSeventh]>
                               (sampleTable sampleSeventh)),
                          [resultOf (mkInput ["R";"G"]) sampleSeventh;
                           resultOf (mkInput ["G";"R"])
                             (itemAfter (mkInput ["R";"G"]) sampleSeventh)])).
    { rewrite (processEvents_cons _ _ _ _ _ _ (sampleTable_lookup sampleSeventh)).
      rewrite (processEvents_cons _ _ _ _ _ _ (lookup_insert_eq _ _ _)).
      reflexivity. }
    assert (Hlow : r_guessNumber (resultOf (mkInput ["G";"R"])
                                    (itemAfter (mkInput ["R";"G"]) sampleSeventh)) < 10)
      by (vm_compute; reflexivity).
    assert (Hmiss : r_blackPegs (resultOf (mkInput ["G";"R"])
                                   (itemAfter (mkInput ["R";"G"]) sampleSeventh))
                    ≠ Z.of_nat (length (secretCode sampleSeventh)))
      by (vm_compute; discriminate).
    split; [exact Hrun|]. split; [apply sampleTable_lookup|]. split; [reflexivity|].
    split; [reflexivity|]. split; [exact Hlow|]. split; [exact Hmiss|].
    apply (proj2 (status_capped _ _ _ _ _ _ Hrun) sampleSeventh 1%nat
             (resultOf (mkInput ["G";"R"]) (itemAfter (mkInput ["R";"G"]) sampleSeventh))
             (sampleTable_lookup sampleSeventh));
      [reflexivity|exact Hlow|exact Hmiss].
Defined.

(** C4: for a game stored as playing and a guess as long as the secret, the
    status of every response, which is also the status stored, is won when
    the black pegs equal the length of the secret, whatever the guess
    number; otherwise lost when the guess number (stored total plus one) is
    at least 10; otherwise playing.  A response is returned whenever the
    guess number is one the update accepts. *)
Theorem status_rule (payload : ValidateGuessInput) (gameId userId : string)
    (t : GamesTable) (item : GameItem) :
  t !! (gameId, userId) = Some item →
  gameStatus item = playing →
  length (guess payload) = length (secretCode item) →
  (∀ t' r,
     processEvent payload gameId userId t = inr (t', r) →
     (∃ item', t' !! (gameId, userId) = Some item' ∧ gameStatus item' = r_gameStatus r)
     ∧ r_blackPegs r = (feedback (guess payload) (secretCode item)).1
     ∧ r_guessNumber r = default 0 (totalGuesses item) + 1
     ∧ r_gameStatus r
       = if decide (r_blackPegs r = Z.of_nat (length (secretCode item))) then won
         else if decide (10 ≤ r_guessNumber r) then lost
         else playing)
  ∧ (updateAccepted (default 0 (totalGuesses item) + 1) →
     ∃ t' r, processEvent payload gameId userId t = inr (t', r)).
Proof.
  intros Hitem _ _. rewrite (processEvent_found _ _ _ _ _ Hitem). split.
  - intros t' r Hr. injection Hr as <- <-.
    split; [eexists; split; [apply lookup_insert_eq|reflexivity]|].
    split; [reflexivity|]. split; [reflexivity|].
    unfold resultOf, statusAfter, nextStatus. cbn [r_gameStatus r_blackPegs r_guessNumber].
    repeat case_bool_decide; repeat case_decide; done.
  - intros _. by eexists _, _.
Qed.

Lemma status_rule_witness :
  sampleTable sampleLate !! ("game-1", "user-1") = Some sampleLate
  ∧ gameStatus sampleLate = playing
  ∧ length ["R";"G"] = length (secretCode sampleLate)
  ∧ updateAccepted (default 0 (totalGuesses sampleLate) + 1)
  ∧ ∃ t' r,
    processEvent (mkInput ["R";"G"]) "game-1" "user-1" (sampleTable sampleLate) = inr (t', r)
    ∧ (∃ item', t' !! ("game-1", "user-1") = Some item' ∧ gameStatus item' = r_gameStatus r)
    ∧ r_blackPegs r = (feedback ["R";"G"] (secretCode sampleLate)).1
    ∧ r_guessNumber r = default 0 (totalGuesses sampleLate) + 1
    ∧ r_gameStatus r
      = if decide (r_blackPegs r = Z.of_nat (length (secretCode sampleLate))) then won
        else if decide (10 ≤ r_guessNumber r) then lost
        else playing.
Proof.
  assert (Hacc : updateAccepted (default 0 (totalGuesses sampleLate) + 1))
    by (split; vm_compute; discriminate).
  split; [apply sampleTable_lookup|]. split; [reflexivity|]. split; [reflexivity|].
  split; [exact Hacc|].
  destruct (status_rule (mkInput ["R";"G"]) "game-1" "user-1" (sampleTable sampleLate)
              sampleLate (sampleTable_lookup sampleLate) eq_refl eq_refl) as [Hrule Hex].
  destruct (Hex Hacc) as (t' & r & Hrun).
  exists t', r. split; [exact Hrun|]. exact (Hrule t' r Hrun).
Defined.

Example tenth_guess_wins :
  r_gameStatus (resultOf (mkInput ["R";"G"]) sampleLate) = won
  ∧ r_guessNumber (resultOf (mkInput ["R";"G"]) sampleLate) = 10.
Proof. split; reflexivity. Qed.

Example tenth_guess_loses :
  r_gameStatus (resultOf (mkInput ["R";"B"]) sampleLate) = lost.
Proof. reflexivity. Qed.

(** C5: in every response of [processEvent] the field [secretCode] is null
    exactly when the returned status is playing, and is the secret of the
    stored game exactly when the returned status is won or lost. *)
Theorem secret_disclosure (payload : ValidateGuessInput) (gameId userId : string)
    (t t' : GamesTable) (r : GuessResult) :
  processEvent payload gameId userId t = inr (t', r) →
  ∃ item,
    t !! (gameId, userId) = Some item
    ∧ (r_secretCode r = None ↔ r_gameStatus r = playing)
    ∧ (r_secretCode r = Some (secretCode item)
       ↔ r_gameStatus r = won ∨ r_gameStatus r = lost).
Proof.
  intros H. apply processEvent_inr in H as (item & Hitem & -> & ->).
  exists item. split; [exact Hitem|].
  unfold resultOf. cbn [r_secretCode r_gameStatus].
  destruct (statusAfter payload item); simpl; split; split; intros H;
    try done; try (by left); try (by right).
  by destruct H.
Qed.

Lemma secret_disclosure_witness :
  ∃ t' r,
    processEvent (mkInput ["R";"B"]) "game-1" "user-1" (sampleTable sampleLate) = inr (t', r)
    ∧ ∃ item,
        sampleTable sampleLate !! ("game-1", "user-1") = Some item
        ∧ (r_secretCode r = None ↔ r_gameStatus r = playing)
        ∧ (r_secretCode r = Some (secretCode item)
           ↔ r_gameStatus r = won ∨ r_gameStatus r = lost).
Proof.
  eexists _, _.
  assert (Hrun : processEvent (mkInput ["R";"B"]) "game-1" "user-1" (sampleTable sampleLate)
                 = inr (<[("game-1", "user-1") := itemAfter (mkInput ["R";"B"]) sampleLate]>
                          (sampleTable sampleLate),
                        resultOf (mkInput ["R";"B"]) sampleLate))
    by apply (processEvent_found _ _ _ _ _ (sampleTable_lookup sampleLate)).
  split; [exact Hrun|].
  apply (secret_disclosure _ _ _ _ _ _ Hrun).
Defined.

(** ** The leaderboard *)

Section sorting.
Context {A : Type} (cmp : A → A → Z).

Lemma insertSorted_Permutation x l : insertSorted cmp x l ≡ₚ x :: l.
Proof.
  induction l as [|y l IH]; simpl; [done|].
  case_bool_decide; [done|].
  rewrite IH. apply Permutation_swap.
Qed.

Lemma arraySort_Permutation l : arraySort cmp l ≡ₚ l.
Proof.
  induction l as [|x l IH]; simpl; [done|].
  by rewrite insertSorted_Permutation, IH.
Qed.

(** Inserting keeps the relative order of the elements of a class [P]
    whose members never compare as positive with each other. *)
Lemma insertSorted_filter (P : A → Prop) `{!∀ x, Decision (P x)} x l :
  (∀ a b, P a → P b → cmp a b ≤ 0) →
  filter P (insertSorted cmp x l) = filter P (x :: l).
Proof.
  intros Htie. induction l as [|y l IH]; simpl; [done|].
  case_bool_decide as Hxy; [done|].
  rewrite filter_cons, IH, !filter_cons.
  destruct (decide (P y)) as [Hy|Hy], (decide (P x)) as [Hx|Hx]; try done.
  exfalso. apply Hxy. by apply Htie.
Qed.

Lemma arraySort_filter (P : A → Prop) `{!∀ x, Decision (P x)} l :
  (∀ a b, P a → P b → cmp a b ≤ 0) →
  filter P (arraySort cmp l) = filter P l.
Proof.
  intros Htie. induction l as [|x l IH]; simpl; [done|].
  rewrite insertSorted_filter by done.
  by rewrite !filter_cons, IH.
Qed.
End sorting.

Section ranking.
Implicit Types a b c : LeaderboardItem.

Lemma compareItems_le a b : compareItems a b ≤ 0 ↔ ranksBefore a b.
Proof. unfold compareItems, ranksBefore. case_bool_decide; lia. Qed.

Lemma ranksBefore_total a b : ranksBefore a b ∨ ranksBefore b a.
Proof. unfold ranksBefore. lia. Qed.

Lemma ranksBefore_trans a b c : ranksBefore a b → ranksBefore b c → ranksBefore a c.
Proof. unfold ranksBefore. lia. Qed.

Lemma sameKeys_tie w s a b : sameKeys w s a → sameKeys w s b → compareItems a b ≤ 0.
Proof. unfold sameKeys. intros [] []. apply compareItems_le. unfold ranksBefore. lia. Qed.

Lemma insertSorted_sorted a l :
  StronglySorted ranksBefore l →
  StronglySorted ranksBefore (insertSorted compareItems a l).
Proof.
  induction 1 as [|b l Hl IH Hb]; simpl.
  - repeat constructor.
  - case_bool_decide as Hab.
    + apply compareItems_le in Hab. constructor; [by constructor|].
      constructor; [done|].
      eapply Forall_impl; [exact Hb|]. intros c. by apply ranksBefore_trans.
    + constructor; [exact IH|].
      rewrite insertSorted_Permutation. constructor; [|done].
      destruct (ranksBefore_total a b) as [H|H]; [|done].
      by apply compareItems_le in H.
Qed.

Lemma leaderboard_sorted items : StronglySorted ranksBefore (leaderboard items).
Proof.
  unfold leaderboard. induction items as [|a items IH]; simpl; [constructor|].
  by apply insertSorted_sorted.
Qed.
End ranking.

(** C9: the leaderboard holds the input records, ordered by [gamesWon]
    descending and then [bestScore] ascending, and the records that tie on
    both keys keep the order they had in the input. *)
Theorem leaderboard_order (items : list LeaderboardItem) :
  leaderboard items ≡ₚ items
  ∧ StronglySorted ranksBefore (leaderboard items)
  ∧ ∀ w s, filter (sameKeys w s) (leaderboard items) = filter (sameKeys w s) items.
Proof.
  split; [apply arraySort_Permutation|]. split; [apply leaderboard_sorted|].
  intros w s. apply arraySort_filter. apply sameKeys_tie.
Qed.

Example leaderboard_three :
  leaderboard [mkItem "u1" "easy" 2 5; mkItem "u2" "easy" 3 9; mkItem "u3" "easy" 2 3]
  = [mkItem "u2" "easy" 3 9; mkItem "u3" "easy" 2 3; mkItem "u1" "easy" 2 5].
Proof. reflexivity. Qed.

Example leaderboard_tied :
  leaderboard [mkItem "u1" "easy" 2 5; mkItem "u2" "easy" 3 9; mkItem "u3" "easy" 2 5]
  = [mkItem "u2" "easy" 3 9; mkItem "u1" "easy" 2 5; mkItem "u3" "easy" 2 5].
Proof. reflexivity. Qed.

(** The order and the stability determine the result: whatever stable
    sorting procedure the runtime uses, it returns this list. *)
Section uniqueness.
Implicit Types a b : LeaderboardItem.
Implicit Types l : list LeaderboardItem.

Lemma ranksBefore_antisym a b :
  ranksBefore a b → ranksBefore b a → sameKeys (gamesWon a) (bestScore a) b.
Proof. unfold ranksBefore, sameKeys. lia. Qed.

Lemma sameKeys_self a : sameKeys (gamesWon a) (bestScore a) a.
Proof. by split. Qed.

Lemma head_ranksBefore a l b :
  StronglySorted ranksBefore (a :: l) → b ∈ a :: l → ranksBefore a b.
Proof.
  intros Hs Hin. apply StronglySorted_inv in Hs as [_ Hall].
  apply elem_of_cons in Hin as [->|Hin].
  - unfold ranksBefore. lia.
  - by eapply Forall_forall in Hall.
Qed.

Lemma stable_sorted_unique l1 l2 :
  StronglySorted ranksBefore l1 →
  StronglySorted ranksBefore l2 →
  (∀ w s, filter (sameKeys w s) l1 = filter (sameKeys w s) l2) →
  l1 = l2.
Proof.
  revert l2. induction l1 as [|a l1 IH]; intros [|b l2] H1 H2 Hf.
  - done.
  - specialize (Hf (gamesWon b) (bestScore b)).
    rewrite filter_cons_True in Hf by apply sameKeys_self. discriminate.
  - specialize (Hf (gamesWon a) (bestScore a)).
    rewrite filter_cons_True in Hf by apply sameKeys_self. discriminate.
  - assert (Ha : a ∈ b :: l2).
    { pose proof (Hf (gamesWon a) (bestScore a)) as Hfa.
      rewrite filter_cons_True in Hfa by apply sameKeys_self.
      assert (a ∈ filter (sameKeys (gamesWon a) (bestScore a)) (b :: l2)) as Hin
        by (rewrite <- Hfa; left).
      by apply list_elem_of_filter in Hin as [_ ?]. }
    assert (Hb : b ∈ a :: l1).
    { pose proof (Hf (gamesWon b) (bestScore b)) as Hfb.
      rewrite (filter_cons_True _ b) in Hfb by apply sameKeys_self.
      assert (b ∈ filter (sameKeys (gamesWon b) (bestScore b)) (a :: l1)) as Hin
        by (rewrite Hfb; left).
      by apply list_elem_of_filter in Hin as [_ ?]. }
    pose proof (ranksBefore_antisym a b (head_ranksBefore _ _ _ H1 Hb)
                  (head_ranksBefore _ _ _ H2 Ha)) as Hkeys.
    assert (a = b) as ->.
    { pose proof (Hf (gamesWon a) (bestScore a)) as Hfa.
      rewrite filter_cons_True in Hfa by apply sameKeys_self.
      rewrite filter_cons_True in Hfa by exact Hkeys. congruence. }
    f_equal. apply IH.
    + by apply StronglySorted_inv in H1 as [? _].
    + by apply StronglySorted_inv in H2 as [? _].
    + intros w s. specialize (Hf w s). rewrite !filter_cons in Hf.
      destruct (decide (sameKeys w s b)); congruence.
Qed.

Lemma leaderboard_unique items l :
  StronglySorted ranksBefore l →
  (∀ w s, filter (sameKeys w s) l = filter (sameKeys w s) items) →
  l = leaderboard items.
Proof.
  intros Hs Hf. apply stable_sorted_unique; [done|apply leaderboard_sorted|].
  intros w s. rewrite Hf. symmetry.
  apply arraySort_filter, sameKeys_tie.
Qed.
End uniqueness.


(** The difficulty filter of the scan does not interfere with the order:
    ranking the filtered items is filtering the ranked items. *)
Section scan.
Implicit Types items table : list LeaderboardItem.

Lemma StronglySorted_filter (P : LeaderboardItem → Prop) `{!∀ x, Decision (P x)} items :
  StronglySorted ranksBefore items → StronglySorted ranksBefore (filter P items).
Proof.
  induction 1 as [|a l Hl IH Ha]; [constructor|].
  rewrite filter_cons. destruct (decide (P a)); [|done].
  constructor; [done|].
  apply Forall_forall. intros b Hb. apply list_elem_of_filter in Hb as [_ Hb].
  by eapply Forall_forall in Ha.
Qed.

Lemma leaderboard_filter (P : LeaderboardItem → Prop) `{!∀ x, Decision (P x)} items :
  leaderboard (filter P items) = filter P (leaderboard items).
Proof.
  symmetry. apply leaderboard_unique.
  - apply StronglySorted_filter, leaderboard_sorted.
  - intros w s. rewrite !list_filter_filter.
    apply arraySort_filter. intros a b [Ha _] [Hb _]. by eapply sameKeys_tie.
Qed.

Lemma leaderboard_scanItems d table :
  d ≠ "" →
  leaderboard (scanItems (Some d) table)
  = filter (λ item, difficulty item = d) (leaderboard table).
Proof.
  intros Hd. unfold scanItems. rewrite bool_decide_false by done.
  apply leaderboard_filter.
Qed.
End scan.


(** * Further properties of the handlers *)

(** ** Scoring beyond equal lengths *)

Section scoring.
Implicit Types guess secret : list string.

Lemma size_pegs secret : size (pegs secret) = length secret.
Proof.
  unfold pegs. induction secret as [|s secret IH]; [done|].
  rewrite list_to_set_disj_cons, gmultiset_size_disj_union, gmultiset_size_singleton.
  simpl. by rewrite IH.
Qed.

Lemma sharedPegs_le_min secret guess :
  (sharedPegs secret guess ≤ length secret `min` length guess)%nat.
Proof.
  unfold sharedPegs.
  assert (size (pegs secret ∩ pegs guess) ≤ size (pegs secret))%nat
    by (apply gmultiset_subseteq_size; multiset_solver).
  assert (size (pegs secret ∩ pegs guess) ≤ size (pegs guess))%nat
    by (apply gmultiset_subseteq_size; multiset_solver).
  rewrite !size_pegs in *. lia.
Qed.

Lemma exactPairs_le_secret guess secret :
  (exactPairs guess secret ≤ length secret)%nat.
Proof.
  revert secret. induction guess as [|g guess IH]; intros [|s ss]; simpl; try lia.
  specialize (IH ss). case_bool_decide; lia.
Qed.

(** All positions of the secret agree exactly when the secret is an initial
    segment of the guess. *)
Lemma exactPairs_full guess secret :
  exactPairs guess secret = length secret ↔ take (length secret) guess = secret.
Proof.
  revert secret. induction guess as [|g guess IH]; intros [|s ss]; simpl; try done.
  pose proof (exactPairs_le_secret guess ss) as Hle.
  case_bool_decide as E.
  - subst s. split.
    + intros H. f_equal. apply IH. lia.
    + intros H. injection H as H. apply IH in H. lia.
  - split; [lia|]. intros H. by injection H as -> _.
Qed.
End scoring.

(** X1: whatever the two lengths, when no guess peg is the empty string the
    black pegs and the white pegs are non-negative and together count at
    most the shorter of the two sequences. *)
Theorem feedback_bounds_any_length (secret guess : list string) :
  "" ∉ guess →
  0 ≤ (feedback guess secret).1
  ∧ 0 ≤ (feedback guess secret).2
  ∧ (feedback guess secret).1 + (feedback guess secret).2
    ≤ Z.of_nat (length secret `min` length guess).
Proof.
  intros Hne. rewrite feedback_unfold. simpl.
  pose proof (exactPairs_le_shared guess secret).
  pose proof (sharedPegs_le_min secret guess).
  rewrite (rawMatches_shared guess secret Hne). lia.
Qed.

Lemma feedback_bounds_any_length_witness :
  ("" ∉ ["R";"G";"B"])
  ∧ 0 ≤ (feedback ["R";"G";"B"] ["G";"R"]).1
  ∧ 0 ≤ (feedback ["R";"G";"B"] ["G";"R"]).2
  ∧ (feedback ["R";"G";"B"] ["G";"R"]).1 + (feedback ["R";"G";"B"] ["G";"R"]).2
    ≤ Z.of_nat (length ["G";"R"] `min` length ["R";"G";"B"]).
Proof.
  assert (Hne : "" ∉ ["R";"G";"B"]).
  { intros H. repeat (apply elem_of_cons in H as [H|H]; [discriminate|]).
    by apply elem_of_nil in H. }
  split; [exact Hne|].
  apply (feedback_bounds_any_length ["G";"R"] ["R";"G";"B"] Hne).
Defined.

(** With empty-string pegs the bound by the secret's length is lost. *)
Example feedback_empty_pegs_exceed : feedback ["A";"";"";""] ["A"] = (1, 3).
Proof. reflexivity. Qed.

(** X2: the status returned for a guess is won exactly when the secret is
    an initial segment of the guess; for a guess as long as the secret,
    exactly when the guess is the secret. *)
Theorem won_iff_secret_prefix (payload : ValidateGuessInput) (item : GameItem) :
  (r_gameStatus (resultOf payload item) = won
   ↔ take (length (secretCode item)) (guess payload) = secretCode item)
  ∧ (length (guess payload) = length (secretCode item) →
     (r_gameStatus (resultOf payload item) = won ↔ guess payload = secretCode item)).
Proof.
  assert (Hwon : r_gameStatus (resultOf payload item) = won
                 ↔ take (length (secretCode item)) (guess payload) = secretCode item).
  { unfold resultOf, statusAfter, nextStatus. cbn [r_gameStatus].
    rewrite feedback_unfold. cbn [fst].
    rewrite <- exactPairs_full.
    repeat case_bool_decide; split; intros; try done; lia. }
  split; [exact Hwon|].
  intros Hlen. rewrite Hwon, <- Hlen. by rewrite firstn_all.
Qed.

Lemma won_iff_secret_prefix_witness :
  length (guess (mkInput ["R";"G"])) = length (secretCode sampleFresh)
  ∧ (r_gameStatus (resultOf (mkInput ["R";"G"]) sampleFresh) = won
     ↔ guess (mkInput ["R";"G"]) = secretCode sampleFresh).
Proof.
  split; [reflexivity|].
  apply (proj2 (won_iff_secret_prefix (mkInput ["R";"G"]) sampleFresh)). reflexivity.
Defined.

(** A guess that extends the secret wins as well. *)
Example longer_guess_wins :
  r_gameStatus (resultOf (mkInput ["R";"G";"B"]) sampleFresh) = won.
Proof. reflexivity. Qed.

(** X3: the total number of pegs awarded does not depend on the order of
    the pegs in the guess nor on their order in the secret, as long as no
    guess peg is the empty string. *)
Theorem total_pegs_permutation (secret secret' guess guess' : list string) :
  secret ≡ₚ secret' → guess ≡ₚ guess' → "" ∉ guess →
  (feedback guess secret).1 + (feedback guess secret).2
  = (feedback guess' secret').1 + (feedback guess' secret').2.
Proof.
  intros Hs Hp Hne.
  assert (Hne' : "" ∉ guess') by (by rewrite <- Hp).
  assert (Hshared : sharedPegs secret guess = sharedPegs secret' guess')
    by (unfold sharedPegs, pegs; by rewrite Hp, Hs).
  rewrite !feedback_unfold. simpl.
  rewrite (rawMatches_shared guess secret Hne), (rawMatches_shared guess' secret' Hne').
  rewrite Hshared. lia.
Qed.

Lemma total_pegs_permutation_witness :
  ["B";"G";"Y"] ≡ₚ ["G";"B";"Y"] ∧ ["R";"G";"B"] ≡ₚ ["G";"R";"B"] ∧ ("" ∉ ["R";"G";"B"])
  ∧ (feedback ["R";"G";"B"] ["B";"G";"Y"]).1 + (feedback ["R";"G";"B"] ["B";"G";"Y"]).2
    = (feedback ["G";"R";"B"] ["G";"B";"Y"]).1 + (feedback ["G";"R";"B"] ["G";"B";"Y"]).2.
Proof.
  assert (Hs : ["B";"G";"Y"] ≡ₚ ["G";"B";"Y"]) by apply Permutation_swap.
  assert (Hp : ["R";"G";"B"] ≡ₚ ["G";"R";"B"]) by apply Permutation_swap.
  assert (Hne : "" ∉ ["R";"G";"B"]).
  { intros H. repeat (apply elem_of_cons in H as [H|H]; [discriminate|]).
    by apply elem_of_nil in H. }
  split; [exact Hs|]. split; [exact Hp|]. split; [exact Hne|].
  apply (total_pegs_permutation ["B";"G";"Y"] ["G";"B";"Y"] ["R";"G";"B"] ["G";"R";"B"]
           Hs Hp Hne).
Defined.

(** ** Runs of guesses on one game *)

Section history.
Implicit Types (payload : ValidateGuessInput) (item : GameItem) (t : GamesTable).

Lemma totalGuesses_itemAfter payload item :
  default 0 (totalGuesses (itemAfter payload item)) = default 0 (totalGuesses item) + 1.
Proof. reflexivity. Qed.

Lemma guesses_itemAfter payload item k :
  guesses (itemAfter payload item) !! k
  = if decide (guessNumberOf item = k) then Some (guessAttrOf payload (secretCode item))
    else guesses item !! k.
Proof. unfold itemAfter, setGuess. cbn [guesses]. apply lookup_insert. Qed.

(** What a run of successive guesses on a stored game returns and leaves in
    the table. *)
Lemma processEvents_run payloads (gameId userId : string) t item :
  t !! (gameId, userId) = Some item →
  ∃ t' rs item',
    processEvents payloads gameId userId t = inr (t', rs)
    ∧ t' !! (gameId, userId) = Some item'
    ∧ (∀ k, k ≠ (gameId, userId) → t' !! k = t !! k)
    ∧ secretCode item' = secretCode item
    ∧ default 0 (totalGuesses item') = default 0 (totalGuesses item) + Z.of_nat (length payloads)
    ∧ length rs = length payloads
    ∧ (∀ j payload, payloads !! j = Some payload →
         ∃ it, rs !! j = Some (resultOf payload it)
               ∧ secretCode it = secretCode item
               ∧ guessNumberOf it = guessNumberOf item + Z.of_nat j
               ∧ guesses item' !! (guessNumberOf item + Z.of_nat j)
                 = Some (guessAttrOf payload (secretCode item)))
    ∧ (∀ k, k < guessNumberOf item ∨ guessNumberOf item + Z.of_nat (length payloads) ≤ k →
            guesses item' !! k = guesses item !! k).
Proof.
  revert t item. induction payloads as [|payload payloads IH]; intros t item Hitem.
  - exists t, [], item. simpl.
    split; [done|]. split; [done|]. split; [done|]. split; [done|].
    split; [lia|]. split; [done|].
    split; [intros j p Hp; by rewrite lookup_nil in Hp|done].
  - destruct (IH (<[(gameId, userId) := itemAfter payload item]> t) (itemAfter payload item)
                (lookup_insert_eq _ _ _))
      as (t' & rs & item' & Hrun & Hitem' & Hframe & Hsecret & Htotal & Hlen & Hrs & Hold).
    exists t', (resultOf payload item :: rs), item'.
    rewrite (processEvents_cons _ _ _ _ _ _ Hitem), Hrun.
    rewrite guessNumberOf_itemAfter in Hrs, Hold.
    split; [done|]. split; [done|].
    split. { intros k Hk. rewrite (Hframe k Hk). by apply lookup_insert_ne. }
    split; [done|].
    split. { rewrite Htotal, totalGuesses_itemAfter. simpl length. lia. }
    split. { simpl. by rewrite Hlen. }
    split.
    + intros [|j] p Hp; simpl in Hp.
      * simplify_eq. exists item. split; [done|]. split; [done|]. split; [lia|].
        replace (guessNumberOf item + Z.of_nat 0) with (guessNumberOf item) by lia.
        rewrite Hold by lia. rewrite guesses_itemAfter. by rewrite decide_True.
      * destruct (Hrs j p Hp) as (it & Hj & Hs & Hn & Hg).
        exists it. split; [done|]. split; [done|]. split; [lia|].
        replace (guessNumberOf item + Z.of_nat (S j))
          with (guessNumberOf item + 1 + Z.of_nat j) by lia.
        exact Hg.
    + intros k Hk. simpl length in Hk.
      rewrite Hold by lia. rewrite guesses_itemAfter.
      rewrite decide_False by lia. done.
Qed.
End history.

(** X4: a successful [processEvent] changes nothing but the item of the game
    addressed: the other items of the table are as before, the secret of the
    game is as before, the guess is stored with its feedback under the
    returned guess number, and the guesses stored under other numbers are as
    before. *)
Theorem processEvent_frame (payload : ValidateGuessInput) (gameId userId : string)
    (t t' : GamesTable) (r : GuessResult) :
  processEvent payload gameId userId t = inr (t', r) →
  (∀ k, k ≠ (gameId, userId) → t' !! k = t !! k)
  ∧ ∃ item item',
      t !! (gameId, userId) = Some item
      ∧ t' !! (gameId, userId) = Some item'
      ∧ secretCode item' = secretCode item
      ∧ totalGuesses item' = Some (r_guessNumber r)
      ∧ gameStatus item' = r_gameStatus r
      ∧ guesses item' !! r_guessNumber r
        = Some (mkGuessAttr (r_guess r) (r_blackPegs r) (r_whitePegs r))
      ∧ ∀ n, n ≠ r_guessNumber r → guesses item' !! n = guesses item !! n.
Proof.
  intros H. apply processEvent_inr in H as (item & Hitem & -> & ->).
  split. { intros k Hk. by apply lookup_insert_ne. }
  exists item, (itemAfter payload item).
  split; [done|]. split; [apply lookup_insert_eq|].
  split; [done|]. split; [done|]. split; [done|].
  split.
  - rewrite guesses_itemAfter. cbn [r_guessNumber resultOf].
    by rewrite decide_True.
  - intros n Hn. rewrite guesses_itemAfter. cbn [r_guessNumber resultOf] in Hn.
    by rewrite decide_False.
Qed.

Lemma processEvent_frame_witness :
  ∃ t' r,
    processEvent (mkInput ["G";"R"]) "game-1" "user-1" (sampleTable sampleWon) = inr (t', r)
    ∧ (∀ k, k ≠ ("game-1", "user-1") → t' !! k = sampleTable sampleWon !! k)
    ∧ ∃ item item',
        sampleTable sampleWon !! ("game-1", "user-1") = Some item
        ∧ t' !! ("game-1", "user-1") = Some item'
        ∧ secretCode item' = secretCode item
        ∧ totalGuesses item' = Some (r_guessNumber r)
        ∧ gameStatus item' = r_gameStatus r
        ∧ guesses item' !! r_guessNumber r
          = Some (mkGuessAttr (r_guess r) (r_blackPegs r) (r_whitePegs r))
        ∧ ∀ n, n ≠ r_guessNumber r → guesses item' !! n = guesses item !! n.
Proof.
  eexists _, _.
  assert (Hrun : processEvent (mkInput ["G";"R"]) "game-1" "user-1" (sampleTable sampleWon)
                 = inr (<[("game-1", "user-1") := itemAfter (mkInput ["G";"R"]) sampleWon]>
                          (sampleTable sampleWon),
                        resultOf (mkInput ["G";"R"]) sampleWon))
    by apply (processEvent_found _ _ _ _ _ (sampleTable_lookup sampleWon)).
  split; [exact Hrun|].
  apply (processEvent_frame _ _ _ _ _ _ Hrun).
Defined.

(** X5: a run of successive guesses on a stored game, all of whose guess
    numbers the update accepts (the stored total is at least -1 and, raised
    by the number of guesses, at most the largest safe integer), succeeds:
    it returns one response per guess, the j-th (from 0) numbered with the
    stored total plus 1 plus j and echoing its guess, and afterwards the
    table holds each guess with its feedback under that number and the
    total raised by the number of guesses. *)
Theorem processEvents_record (payloads : list ValidateGuessInput) (gameId userId : string)
    (t : GamesTable) (item : GameItem) :
  t !! (gameId, userId) = Some item →
  -1 ≤ default 0 (totalGuesses item) →
  default 0 (totalGuesses item) + Z.of_nat (length payloads) ≤ maxSafeInteger →
  ∃ t' rs item',
    processEvents payloads gameId userId t = inr (t', rs)
    ∧ length rs = length payloads
    ∧ t' !! (gameId, userId) = Some item'
    ∧ default 0 (totalGuesses item') = default 0 (totalGuesses item) + Z.of_nat (length payloads)
    ∧ ∀ j payload, payloads !! j = Some payload →
        ∃ r, rs !! j = Some r
             ∧ r_guess r = guess payload
             ∧ r_guessNumber r = default 0 (totalGuesses item) + 1 + Z.of_nat j
             ∧ (r_blackPegs r, r_whitePegs r) = feedback (guess payload) (secretCode item)
             ∧ guesses item' !! r_guessNumber r
               = Some (mkGuessAttr (guess payload) (r_blackPegs r) (r_whitePegs r)).
Proof.
  intros Hitem _ _.
  destruct (processEvents_run payloads gameId userId t item Hitem)
    as (t' & rs & item' & Hrun & Hitem' & _ & _ & Htotal & Hlen & Hrs & _).
  exists t', rs, item'. repeat (split; [done|]).
  intros j p Hp. destruct (Hrs j p Hp) as (it & Hj & Hs & Hn & Hg).
  exists (resultOf p it). split; [done|]. split; [done|].
  cbn [resultOf r_guessNumber r_blackPegs r_whitePegs]. rewrite Hs, Hn.
  split; [done|]. split; [symmetry; apply surjective_pairing|exact Hg].
Qed.

Lemma processEvents_record_witness :
  sampleTable sampleFresh !! ("game-1", "user-1") = Some sampleFresh
  ∧ -1 ≤ default 0 (totalGuesses sampleFresh)
  ∧ default 0 (totalGuesses sampleFresh)
    + Z.of_nat (length [mkInput ["G";"R"]; mkInput ["R";"G"]]) ≤ maxSafeInteger
  ∧ ∃ t' rs item',
    processEvents [mkInput ["G";"R"]; mkInput ["R";"G"]] "game-1" "user-1"
      (sampleTable sampleFresh) = inr (t', rs)
    ∧ length rs = length [mkInput ["G";"R"]; mkInput ["R";"G"]]
    ∧ t' !! ("game-1", "user-1") = Some item'
    ∧ default 0 (totalGuesses item')
      = default 0 (totalGuesses sampleFresh)
        + Z.of_nat (length [mkInput ["G";"R"]; mkInput ["R";"G"]])
    ∧ ∀ j payload, [mkInput ["G";"R"]; mkInput ["R";"G"]] !! j = Some payload →
        ∃ r, rs !! j = Some r
             ∧ r_guess r = guess payload
             ∧ r_guessNumber r = default 0 (totalGuesses sampleFresh) + 1 + Z.of_nat j
             ∧ (r_blackPegs r, r_whitePegs r) = feedback (guess payload) (secretCode sampleFresh)
             ∧ guesses item' !! r_guessNumber r
               = Some (mkGuessAttr (guess payload) (r_blackPegs r) (r_whitePegs r)).
Proof.
  assert (Hlo : -1 ≤ default 0 (totalGuesses sampleFresh)) by (vm_compute; discriminate).
  assert (Hhi : default 0 (totalGuesses sampleFresh)
                + Z.of_nat (length [mkInput ["G";"R"]; mkInput ["R";"G"]]) ≤ maxSafeInteger)
    by (vm_compute; discriminate).
  split; [apply sampleTable_lookup|]. split; [exact Hlo|]. split; [exact Hhi|].
  apply (processEvents_record [mkInput ["G";"R"]; mkInput ["R";"G"]] "game-1" "user-1"
           (sampleTable sampleFresh) sampleFresh (sampleTable_lookup sampleFresh) Hlo Hhi).
Defined.

(** X6: runs keep the stored history gap-free: if the guesses of the stored
    game are numbered 1 up to its total, they still are after any run of
    successive guesses, with the total raised by the number of guesses. *)
Theorem processEvents_history (payloads : list ValidateGuessInput) (gameId userId : string)
    (t t' : GamesTable) (rs : list GuessResult) (item : GameItem) :
  t !! (gameId, userId) = Some item →
  historyOk item →
  processEvents payloads gameId userId t = inr (t', rs) →
  ∃ item',
    t' !! (gameId, userId) = Some item'
    ∧ historyOk item'
    ∧ default 0 (totalGuesses item') = default 0 (totalGuesses item) + Z.of_nat (length payloads).
Proof.
  intros Hitem [Hpos Hkeys] Hrun.
  destruct (processEvents_run payloads gameId userId t item Hitem)
    as (t2 & rs2 & item' & Hrun2 & Hitem' & _ & _ & Htotal & Hlen & Hrs & Hold).
  rewrite Hrun in Hrun2. simplify_eq.
  exists item'. split; [done|]. split; [|done].
  split; [lia|]. intros k. rewrite Htotal.
  unfold guessNumberOf in *.
  destruct (decide (default 0 (totalGuesses item) + 1 ≤ k
                    < default 0 (totalGuesses item) + 1 + Z.of_nat (length payloads)))
    as [Hin|Hout].
  - split; [lia|]. intros _.
    destruct (lookup_lt_is_Some_2 payloads (Z.to_nat (k - (default 0 (totalGuesses item) + 1))))
      as [p Hp]; [lia|].
    destruct (Hrs _ p Hp) as (it & _ & _ & _ & Hg).
    replace (default 0 (totalGuesses item) + 1
             + Z.of_nat (Z.to_nat (k - (default 0 (totalGuesses item) + 1)))) with k in Hg by lia.
    by rewrite Hg.
  - rewrite Hold by lia. rewrite Hkeys. lia.
Qed.

Lemma processEvents_history_witness :
  ∃ t' rs,
    sampleTable sampleFresh !! ("game-1", "user-1") = Some sampleFresh
    ∧ historyOk sampleFresh
    ∧ processEvents [mkInput ["G";"R"]; mkInput ["R";"G"]] "game-1" "user-1"
        (sampleTable sampleFresh) = inr (t', rs)
    ∧ ∃ item',
        t' !! ("game-1", "user-1") = Some item'
        ∧ historyOk item'
        ∧ default 0 (totalGuesses item')
          = default 0 (totalGuesses sampleFresh)
            + Z.of_nat (length [mkInput ["G";"R"]; mkInput ["R";"G"]]).
Proof.
  assert (Hok : historyOk sampleFresh).
  { split; [done|]. intros k. simpl. rewrite lookup_empty. split; [by intros [? ?]|lia]. }
  eexists _, _.
  assert (Hrun : processEvents [mkInput ["G";"R"]; mkInput ["R";"G"]] "game-1" "user-1"
                   (sampleTable sampleFresh)
                 = inr (<[("game-1", "user-1") :=
                            itemAfter (mkInput ["R";"G"])
                              (itemAfter (mkInput ["G";"R"]) sampleFresh)]>
                          (<[("game-1", "user-1") := itemAfter (mkInput ["G";"R"]) sampleFresh]>
                             (sampleTable sampleFresh)),
                        [resultOf (mkInput ["G";"R"]) sampleFresh;
                         resultOf (mkInput ["R";"G"])
                           (itemAfter (mkInput ["G";"R"]) sampleFresh)])).
  { rewrite (processEvents_cons _ _ _ _ _ _ (sampleTable_lookup sampleFresh)).
    rewrite (processEvents_cons _ _ _ _ _ _ (lookup_insert_eq _ _ _)).
    reflexivity. }
  split; [apply sampleTable_lookup|]. split; [exact Hok|]. split; [exact Hrun|].
  apply (processEvents_history _ _ _ _ _ _ _ (sampleTable_lookup sampleFresh) Hok Hrun).
Defined.

(** X7: the attempt cap over a run: a response whose position in the run,
    added to the total stored before the run, reaches 9 never has status
    playing and always discloses the secret of the game.  From a new game
    only the first nine responses can be playing. *)
Theorem processEvents_cap (payloads : list ValidateGuessInput) (gameId userId : string)
    (t t' : GamesTable) (rs : list GuessResult) (item : GameItem) (j : nat) (r : GuessResult) :
  t !! (gameId, userId) = Some item →
  processEvents payloads gameId userId t = inr (t', rs) →
  rs !! j = Some r →
  9 ≤ default 0 (totalGuesses item) + Z.of_nat j →
  r_gameStatus r ≠ playing ∧ r_secretCode r = Some (secretCode item).
Proof.
  intros Hitem Hrun Hj Hcap.
  destruct (processEvents_run payloads gameId userId t item Hitem)
    as (t2 & rs2 & item' & Hrun2 & _ & _ & _ & _ & Hlen & Hrs & _).
  rewrite Hrun in Hrun2. simplify_eq.
  destruct (lookup_lt_is_Some_2 payloads j) as [p Hp].
  { rewrite <- Hlen. by eapply lookup_lt_Some. }
  destruct (Hrs j p Hp) as (it & Hj' & Hs & Hn & _).
  rewrite Hj in Hj'. simplify_eq.
  assert (Hnp : r_gameStatus (resultOf p it) ≠ playing).
  { cbn [resultOf r_gameStatus]. unfold statusAfter.
    apply nextStatus_capped. rewrite Hn. unfold guessNumberOf. lia. }
  split; [exact Hnp|].
  cbn [resultOf r_secretCode r_gameStatus] in *. rewrite Hs.
  by destruct (statusAfter p it).
Qed.

Lemma processEvents_cap_witness :
  ∃ t' r1 r2,
    sampleTable sampleLate !! ("game-1", "user-1") = Some sampleLate
    ∧ processEvents [mkInput ["G";"R"]; mkInput ["G";"G"]] "game-1" "user-1"
        (sampleTable sampleLate) = inr (t', [r1; r2])
    ∧ [r1; r2] !! 1%nat = Some r2
    ∧ 9 ≤ default 0 (totalGuesses sampleLate) + Z.of_nat 1
    ∧ r_gameStatus r2 ≠ playing ∧ r_secretCode r2 = Some (secretCode sampleLate).
Proof.
  eexists _, _, _.
  assert (Hrun : processEvents [mkInput ["G";"R"]; mkInput ["G";"G"]] "game-1" "user-1"
                   (sampleTable sampleLate)
                 = inr (<[("game-1", "user-1") :=
                            itemAfter (mkInput ["G";"G"])
                              (itemAfter (mkInput ["G";"R"]) sampleLate)]>
                          (<[("game-1", "user-1") := itemAfter (mkInput ["G";"R"]) sampleLate]>
                             (sampleTable sampleLate)),
                        [resultOf (mkInput ["G";"R"]) sampleLate;
                         resultOf (mkInput ["G";"G"])
                           (itemAfter (mkInput ["G";"R"]) sampleLate)])).
  { rewrite (processEvents_cons _ _ _ _ _ _ (sampleTable_lookup sampleLate)).
    rewrite (processEvents_cons _ _ _ _ _ _ (lookup_insert_eq _ _ _)).
    reflexivity. }
  assert (Hcap : 9 ≤ default 0 (totalGuesses sampleLate) + Z.of_nat 1) by (simpl; lia).
  split; [apply sampleTable_lookup|]. split; [exact Hrun|]. split; [reflexivity|].
  split; [exact Hcap|].
  apply (processEvents_cap _ _ _ _ _ _ _ 1%nat
           (resultOf (mkInput ["G";"G"]) (itemAfter (mkInput ["G";"R"]) sampleLate))
           (sampleTable_lookup sampleLate) Hrun); [reflexivity|exact Hcap].
Defined.


(** ** The leaderboard handler and its comparator *)

Section board.
Implicit Types a b c : LeaderboardItem.
Implicit Types items l : list LeaderboardItem.

Lemma compareItems_swap a b : compareItems a b = - compareItems b a.
Proof. unfold compareItems. repeat case_bool_decide; lia. Qed.

Lemma compareItems_zero a b :
  compareItems a b = 0 ↔ gamesWon a = gamesWon b ∧ bestScore a = bestScore b.
Proof. unfold compareItems. case_bool_decide; lia. Qed.

Lemma leaderboard_head_best top rest items b :
  leaderboard items = top :: rest → b ∈ items → ranksBefore top b.
Proof.
  intros Hl Hb. eapply (head_ranksBefore top rest).
  - rewrite <- Hl. apply leaderboard_sorted.
  - rewrite <- Hl. unfold leaderboard. by rewrite arraySort_Permutation.
Qed.
End board.

(** X8: the comparator is a consistent one: swapping the arguments negates
    the result, the result is 0 exactly for records that tie on both keys,
    and "not after" is transitive.  The order of the sorted array is
    therefore fixed by the language definition. *)
Theorem compareItems_consistent (a b c : LeaderboardItem) :
  compareItems a b = - compareItems b a
  ∧ (compareItems a b = 0 ↔ gamesWon a = gamesWon b ∧ bestScore a = bestScore b)
  ∧ (compareItems a b ≤ 0 → compareItems b c ≤ 0 → compareItems a c ≤ 0).
Proof.
  split; [apply compareItems_swap|]. split; [apply compareItems_zero|].
  rewrite !compareItems_le. apply ranksBefore_trans.
Qed.

Lemma compareItems_consistent_witness :
  compareItems (mkItem "u2" "hard" 3 9) (mkItem "u3" "easy" 2 3) ≤ 0
  ∧ compareItems (mkItem "u3" "easy" 2 3) (mkItem "u1" "easy" 2 5) ≤ 0
  ∧ compareItems (mkItem "u2" "hard" 3 9) (mkItem "u1" "easy" 2 5) ≤ 0.
Proof.
  assert (H1 : compareItems (mkItem "u2" "hard" 3 9) (mkItem "u3" "easy" 2 3) ≤ 0)
    by (vm_compute; discriminate).
  assert (H2 : compareItems (mkItem "u3" "easy" 2 3) (mkItem "u1" "easy" 2 5) ≤ 0)
    by (vm_compute; discriminate).
  split; [exact H1|]. split; [exact H2|].
  apply (proj2 (proj2 (compareItems_consistent (mkItem "u2" "hard" 3 9)
                         (mkItem "u3" "easy" 2 3) (mkItem "u1" "easy" 2 5))) H1 H2).
Defined.

(** X9: the leaderboard is the only arrangement of the records that is in
    rank order and keeps tied records in input order: a list with these two
    properties is the list the handler returns, whatever stable sorting
    procedure produced it. *)
Theorem leaderboard_determined (items l : list LeaderboardItem) :
  StronglySorted ranksBefore l →
  (∀ w s, filter (sameKeys w s) l = filter (sameKeys w s) items) →
  l = leaderboard items.
Proof.
  intros Hs Hf. apply stable_sorted_unique; [done|apply leaderboard_sorted|].
  intros w s. rewrite Hf. symmetry.
  apply arraySort_filter, sameKeys_tie.
Qed.

Lemma leaderboard_determined_witness :
  StronglySorted ranksBefore
    [mkItem "u2" "hard" 3 9; mkItem "u3" "easy" 2 3; mkItem "u1" "easy" 2 5;
     mkItem "u4" "easy" 2 5]
  ∧ (∀ w s,
       filter (sameKeys w s)
         [mkItem "u2" "hard" 3 9; mkItem "u3" "easy" 2 3; mkItem "u1" "easy" 2 5;
          mkItem "u4" "easy" 2 5]
       = filter (sameKeys w s) sampleBoard)
  ∧ [mkItem "u2" "hard" 3 9; mkItem "u3" "easy" 2 3; mkItem "u1" "easy" 2 5;
     mkItem "u4" "easy" 2 5] = leaderboard sampleBoard.
Proof.
  assert (Hs : StronglySorted ranksBefore
                 [mkItem "u2" "hard" 3 9; mkItem "u3" "easy" 2 3; mkItem "u1" "easy" 2 5;
                  mkItem "u4" "easy" 2 5]).
  { repeat (constructor; [|repeat (constructor; [unfold ranksBefore; simpl; lia|]);
                            try constructor]). constructor. }
  assert (Hf : ∀ w s,
                 filter (sameKeys w s)
                   [mkItem "u2" "hard" 3 9; mkItem "u3" "easy" 2 3; mkItem "u1" "easy" 2 5;
                    mkItem "u4" "easy" 2 5]
                 = filter (sameKeys w s) sampleBoard).
  { intros w s. unfold sampleBoard. rewrite !filter_cons, !filter_nil.
    unfold sameKeys. simpl.
    repeat (case_decide; try lia); reflexivity. }
  split; [exact Hs|]. split; [exact Hf|].
  apply (leaderboard_determined sampleBoard _ Hs Hf).
Defined.

(** X10: ranking twice changes nothing. *)
Theorem leaderboard_idempotent (items : list LeaderboardItem) :
  leaderboard (leaderboard items) = leaderboard items.
Proof.
  symmetry. apply stable_sorted_unique.
  - apply leaderboard_sorted.
  - apply leaderboard_sorted.
  - intros w s. symmetry. apply arraySort_filter, sameKeys_tie.
Qed.

(** X11: the first record of the leaderboard is a best one: no record of
    the input has more games won, and none with as many games won has a
    lower best score; and the leaderboard is empty only for an empty
    input. *)
Theorem leaderboard_top (items : list LeaderboardItem) :
  (leaderboard items = [] ↔ items = [])
  ∧ ∀ top rest b,
      leaderboard items = top :: rest → b ∈ items →
      top ∈ items
      ∧ gamesWon b ≤ gamesWon top
      ∧ (gamesWon b = gamesWon top → bestScore top ≤ bestScore b).
Proof.
  split.
  - split; [|by intros ->].
    intros H. apply Permutation_nil_r. rewrite <- H.
    unfold leaderboard. by rewrite arraySort_Permutation.
  - intros top rest b Hl Hb.
    pose proof (leaderboard_head_best top rest items b Hl Hb) as Hr.
    split.
    + assert (top ∈ leaderboard items) as Hin by (rewrite Hl; left).
      unfold leaderboard in Hin. by rewrite arraySort_Permutation in Hin.
    + unfold ranksBefore in Hr. lia.
Qed.

Lemma leaderboard_top_witness :
  leaderboard sampleBoard
  = mkItem "u2" "hard" 3 9
    :: [mkItem "u3" "easy" 2 3; mkItem "u1" "easy" 2 5; mkItem "u4" "easy" 2 5]
  ∧ mkItem "u4" "easy" 2 5 ∈ sampleBoard
  ∧ mkItem "u2" "hard" 3 9 ∈ sampleBoard
  ∧ gamesWon (mkItem "u4" "easy" 2 5) ≤ gamesWon (mkItem "u2" "hard" 3 9)
  ∧ (gamesWon (mkItem "u4" "easy" 2 5) = gamesWon (mkItem "u2" "hard" 3 9) →
     bestScore (mkItem "u2" "hard" 3 9) ≤ bestScore (mkItem "u4" "easy" 2 5)).
Proof.
  assert (Hl : leaderboard sampleBoard
               = mkItem "u2" "hard" 3 9
                 :: [mkItem "u3" "easy" 2 3; mkItem "u1" "easy" 2 5; mkItem "u4" "easy" 2 5])
    by reflexivity.
  assert (Hb : mkItem "u4" "easy" 2 5 ∈ sampleBoard).
  { unfold sampleBoard. do 3 right. left. }
  split; [exact Hl|]. split; [exact Hb|].
  apply (proj2 (leaderboard_top sampleBoard) _ _ _ Hl Hb).
Defined.

(** X12: a leaderboard request other than OPTIONS, when the scan succeeds,
    is answered with status 200; with a non-empty difficulty parameter the
    body is the leaderboard of all records restricted to that difficulty
    (so every record returned has that difficulty and players keep the
    relative order they have on the full board); with the parameter absent
    or empty the body is the leaderboard of all records. *)
Theorem getLeaderboard_body (event : APIGatewayProxyEvent) (items : list LeaderboardItem) :
  httpMethod event ≠ "OPTIONS" →
  statusCode (GetLeaderboard.handler event (inr items)) = 200
  ∧ headers (GetLeaderboard.handler event (inr items)) = corsHeaders
  ∧ body (GetLeaderboard.handler event (inr items))
    = match queryDifficulty event with
      | Some d =>
          if decide (d = "") then LeaderboardBody (leaderboard items)
          else LeaderboardBody (filter (λ item, difficulty item = d) (leaderboard items))
      | None => LeaderboardBody (leaderboard items)
      end.
Proof.
  intros Hm. unfold GetLeaderboard.handler. rewrite bool_decide_false by done.
  cbn [statusCode headers body]. split; [done|]. split; [done|].
  destruct (queryDifficulty event) as [d|]; [|done].
  destruct (decide (d = "")) as [->|Hd]; [done|].
  by rewrite (leaderboard_scanItems d items Hd).
Qed.

Lemma getLeaderboard_body_witness :
  httpMethod (mkApiEvent "GET" (Some "easy")) ≠ "OPTIONS"
  ∧ statusCode (GetLeaderboard.handler (mkApiEvent "GET" (Some "easy")) (inr sampleBoard)) = 200
  ∧ headers (GetLeaderboard.handler (mkApiEvent "GET" (Some "easy")) (inr sampleBoard))
    = corsHeaders
  ∧ body (GetLeaderboard.handler (mkApiEvent "GET" (Some "easy")) (inr sampleBoard))
    = match queryDifficulty (mkApiEvent "GET" (Some "easy")) with
      | Some d =>
          if decide (d = "") then LeaderboardBody (leaderboard sampleBoard)
          else LeaderboardBody (filter (λ item, difficulty item = d) (leaderboard sampleBoard))
      | None => LeaderboardBody (leaderboard sampleBoard)
      end.
Proof.
  assert (Hm : httpMethod (mkApiEvent "GET" (Some "easy")) ≠ "OPTIONS") by discriminate.
  split; [exact Hm|].
  apply (getLeaderboard_body (mkApiEvent "GET" (Some "easy")) sampleBoard Hm).
Defined.

Example getLeaderboard_easy :
  body (GetLeaderboard.handler (mkApiEvent "GET" (Some "easy")) (inr sampleBoard))
  = LeaderboardBody [mkItem "u3" "easy" 2 3; mkItem "u1" "easy" 2 5; mkItem "u4" "easy" 2 5].
Proof. reflexivity. Qed.

Example getLeaderboard_options_ignores_table :
  GetLeaderboard.handler (mkApiEvent "OPTIONS" None) (inl (Error "scan failed"))
  = mkApiResult 200 corsHeaders EmptyBody.
Proof. reflexivity. Qed.

Example getLeaderboard_scan_error :
  GetLeaderboard.handler (mkApiEvent "GET" None) (inl (Error "scan failed"))
  = mkApiResult 500 corsHeaders (ErrorBody "Internal server error").
Proof. reflexivity. Qed.

(** ** The publish handler under every schedule *)

Section tasks.
Context (gameId userId : string).
Implicit Types (payload : ValidateGuessInput) (item : GameItem) (t : GamesTable).
Implicit Types (task : Task) (tasks : list Task) (schedule : list nat).

Lemma processEvent_afterGet payload :
  processEvent payload gameId userId
  = (gameResult ← getItem gameId userId; afterGet payload gameId userId gameResult).
Proof. reflexivity. Qed.

Lemma afterGet_Some payload item t :
  afterGet payload gameId userId (Some item) t
  = inr (alter (λ cur, setGuess cur (guessNumberOf item)
                         (guessAttrOf payload (secretCode item)) (statusAfter payload item))
           (gameId, userId) t,
         resultOf payload item).
Proof.
  unfold afterGet, resultOf, guessAttrOf, statusAfter, guessNumberOf.
  by destruct (feedback (guess payload) (secretCode item)) as [cp cc].
Qed.

Lemma serve_get_found payload item t :
  t !! (gameId, userId) = Some item →
  serve gameId userId (AwaitGet payload) t = (AwaitUpdate payload item, t).
Proof. intros H. unfold serve, getItem. by rewrite H. Qed.

Lemma serve_get_missing payload t :
  t !! (gameId, userId) = None →
  serve gameId userId (AwaitGet payload) t = (Rejected (Error "Game not found"), t).
Proof. intros H. unfold serve, getItem. by rewrite H. Qed.

Lemma serve_update payload item t :
  serve gameId userId (AwaitUpdate payload item) t
  = (Fulfilled (resultOf payload item),
     alter (λ cur, setGuess cur (guessNumberOf item)
                     (guessAttrOf payload (secretCode item)) (statusAfter payload item))
       (gameId, userId) t).
Proof. unfold serve. by rewrite afterGet_Some. Qed.

(** Serving a call twice in a row is [processEvent]. *)
Lemma serve_twice payload t :
  (let '(task, t1) := serve gameId userId (AwaitGet payload) t in serve gameId userId task t1)
  = match processEvent payload gameId userId t with
    | inl e => (Rejected e, t)
    | inr (t', r) => (Fulfilled r, t')
    end.
Proof.
  destruct (t !! (gameId, userId)) as [item|] eqn:E.
  - rewrite (serve_get_found _ _ _ E), serve_update.
    rewrite (processEvent_found _ _ _ _ _ E). f_equal.
    apply map_eq. intros k. rewrite lookup_alter, lookup_insert.
    case_decide; subst; [by rewrite E|done].
  - rewrite (serve_get_missing _ _ E). simpl.
    by rewrite (processEvent_not_found _ _ _ _ E).
Qed.

Lemma serve_stage task t :
  (2 `min` S (stage task) ≤ stage (serve gameId userId task t).1)%nat.
Proof.
  destruct task as [p|p it|r|e]; [| |simpl; lia..].
  - unfold serve, getItem. destruct (t !! (gameId, userId)); simpl; lia.
  - rewrite serve_update. simpl. lia.
Qed.

Lemma runTasks_cons i schedule st :
  runTasks gameId userId (i :: schedule) st
  = runTasks gameId userId schedule (serveAt gameId userId st i).
Proof. reflexivity. Qed.

Lemma runTasks_app s1 s2 st :
  runTasks gameId userId (s1 ++ s2) st
  = runTasks gameId userId s2 (runTasks gameId userId s1 st).
Proof. apply foldl_app. Qed.

Lemma serveAt_length st i :
  length (serveAt gameId userId st i).1 = length st.1.
Proof.
  unfold serveAt. destruct (st.1 !! i) as [task|]; [|done].
  destruct (serve gameId userId task st.2). simpl. apply length_insert.
Qed.

Lemma runTasks_length schedule st :
  length (runTasks gameId userId schedule st).1 = length st.1.
Proof.
  revert st. induction schedule as [|i s IH]; intros st; [done|].
  by rewrite runTasks_cons, IH, serveAt_length.
Qed.

Lemma serveAt_other st i j :
  i ≠ j → (serveAt gameId userId st j).1 !! i = st.1 !! i.
Proof.
  intros Hne. unfold serveAt. destruct (st.1 !! j) as [task|]; [|done].
  destruct (serve gameId userId task st.2). simpl.
  by apply list_lookup_insert_ne.
Qed.

(** Every time the table serves a call, the call advances. *)
Lemma runTasks_stage schedule st i task :
  st.1 !! i = Some task →
  ∃ task', (runTasks gameId userId schedule st).1 !! i = Some task'
           ∧ (2 `min` (stage task + length (filter (λ j, j = i) schedule)) ≤ stage task')%nat.
Proof.
  revert st task. induction schedule as [|j s IH]; intros st task Hi.
  - exists task. split; [done|]. rewrite filter_nil. cbn [length]. lia.
  - rewrite runTasks_cons, filter_cons.
    destruct (decide (j = i)) as [->|Hne].
    + assert (∃ task1, (serveAt gameId userId st i).1 !! i = Some task1
                       ∧ (2 `min` S (stage task) ≤ stage task1)%nat) as (task1 & H1 & Hs).
      { unfold serveAt. rewrite Hi.
        pose proof (serve_stage task st.2) as Hst.
        destruct (serve gameId userId task st.2) as [task1 t1]. simpl in *.
        exists task1. split; [|done].
        apply list_lookup_insert_eq. by eapply lookup_lt_Some. }
      destruct (IH _ _ H1) as (task' & H' & Hs'). exists task'. split; [done|].
      cbn [length]. lia.
    + destruct (IH (serveAt gameId userId st j) task) as (task' & H' & Hs').
      { rewrite serveAt_other by done. exact Hi. }
      exists task'. split; [done|]. lia.
Qed.

Lemma runTasks_settled n schedule st i task' :
  servedTwice n schedule → length st.1 = n →
  (runTasks gameId userId schedule st).1 !! i = Some task' → stage task' = 2%nat.
Proof.
  intros Hs Hn Hi.
  assert (i < n)%nat as Hlt.
  { rewrite <- Hn, <- (runTasks_length schedule st). by eapply lookup_lt_Some. }
  destruct (lookup_lt_is_Some_2 st.1 i) as [task Htask]; [lia|].
  destruct (runTasks_stage schedule st i task Htask) as (task2 & H2 & Hst).
  rewrite Hi in H2. simplify_eq.
  specialize (Hs i Hlt).
  assert (stage task2 ≤ 2)%nat by (destruct task2; simpl; lia). lia.
Qed.

(** [Promise.all] on settled calls. *)
Lemma promiseAll_fmap_Fulfilled rs : promiseAll (Fulfilled <$> rs) = Some (inr rs).
Proof.
  induction rs as [|r rs IH]; [done|].
  rewrite fmap_cons. cbn [promiseAll]. by rewrite IH.
Qed.

Lemma promiseAll_all_fulfilled tasks :
  (∀ i task, tasks !! i = Some task → ∃ r, task = Fulfilled r) →
  ∃ rs, tasks = Fulfilled <$> rs.
Proof.
  induction tasks as [|task tasks IH]; intros H.
  - by exists [].
  - destruct (H 0%nat task eq_refl) as [r ->].
    destruct IH as [rs ->]; [intros i task' Hi; by apply (H (S i))|].
    by exists (r :: rs).
Qed.

Lemma promiseAll_all_rejected e tasks :
  tasks ≠ [] →
  (∀ i task, tasks !! i = Some task → task = Rejected e) →
  promiseAll tasks = Some (inl e).
Proof.
  destruct tasks as [|task tasks]; [done|]. intros _ H.
  by rewrite (H 0%nat task eq_refl).
Qed.

(** Counting the calls that have written. *)
Lemma fulfilled_le tasks : (fulfilled tasks ≤ length tasks)%nat.
Proof. apply length_filter. Qed.

Lemma fulfilled_init (payloads : list ValidateGuessInput) :
  fulfilled (AwaitGet <$> payloads) = 0%nat.
Proof.
  unfold fulfilled. induction payloads as [|p ps IH]; [done|].
  rewrite fmap_cons, filter_cons_False by (simpl; tauto). exact IH.
Qed.

Lemma fulfilled_insert tasks i old new :
  tasks !! i = Some old →
  (fulfilled (<[i := new]> tasks)
   + (if decide (isFulfilled old) then 1 else 0)
   = fulfilled tasks + (if decide (isFulfilled new) then 1 else 0))%nat.
Proof.
  unfold fulfilled. revert i. induction tasks as [|task tasks IH]; intros [|i] H;
    simplify_eq/=.
  - rewrite !filter_cons. repeat case_decide; simpl; lia.
  - rewrite !filter_cons. specialize (IH i H).
    destruct (decide (isFulfilled task)); simpl; lia.
Qed.
End tasks.


Section missing.
Context (gameId userId : string).
Implicit Types (t : GamesTable) (tasks : list Task) (schedule : list nat).

(** Without an item under the key no call ever writes: calls stay at their
    read or are rejected with "Game not found". *)
Lemma serveAt_missing tasks t j :
  t !! (gameId, userId) = None →
  (∀ i task, tasks !! i = Some task →
     stage task = 0%nat ∨ task = Rejected (Error "Game not found")) →
  ∃ tasks', serveAt gameId userId (tasks, t) j = (tasks', t)
            ∧ ∀ i task, tasks' !! i = Some task →
                stage task = 0%nat ∨ task = Rejected (Error "Game not found").
Proof.
  intros Hkey Hall. unfold serveAt. cbn [fst snd].
  destruct (tasks !! j) as [task|] eqn:Hj; [|by exists tasks].
  assert (serve gameId userId task t = (Rejected (Error "Game not found"), t)) as ->.
  { destruct (Hall j task Hj) as [H0| ->]; [|done].
    destruct task as [p| | |]; try discriminate. by apply serve_get_missing. }
  eexists. split; [done|]. intros i task' Hi.
  apply list_lookup_insert_Some in Hi as [(-> & <- & _)|[_ Hi]]; [by right|by eapply Hall].
Qed.

Lemma runTasks_missing schedule tasks t :
  t !! (gameId, userId) = None →
  (∀ i task, tasks !! i = Some task →
     stage task = 0%nat ∨ task = Rejected (Error "Game not found")) →
  (runTasks gameId userId schedule (tasks, t)).2 = t
  ∧ ∀ i task, (runTasks gameId userId schedule (tasks, t)).1 !! i = Some task →
      stage task = 0%nat ∨ task = Rejected (Error "Game not found").
Proof.
  intros Hkey. revert tasks. induction schedule as [|j s IH]; intros tasks Hall; [done|].
  rewrite runTasks_cons.
  destruct (serveAt_missing tasks t j Hkey Hall) as (tasks' & -> & Hall').
  by apply IH.
Qed.

End missing.



Section present.
Context (gameId userId : string) (item0 : GameItem) (t0 : GamesTable).
Context (payloads : list ValidateGuessInput).
Hypothesis Hitem0 : t0 !! (gameId, userId) = Some item0.
Implicit Types (t : GamesTable) (tasks : list Task) (schedule : list nat).

Lemma reach_mono k k' it : k ≤ k' → reach item0 k it → reach item0 k' it.
Proof. unfold reach. intros ? (? & ? & ?). split; [done|lia]. Qed.

Lemma taskOk_mono F F' payload task :
  (F ≤ F')%nat → taskOk item0 F payload task → taskOk item0 F' payload task.
Proof.
  intros HF. destruct task as [p|p it|r|e]; simpl; [done| | |done].
  - intros [-> H]. split; [done|]. eapply reach_mono; [|done]. lia.
  - intros (it & -> & H & H1). exists it. split; [done|].
    split; [eapply reach_mono; [|done]|]; lia.
Qed.

Lemma alter_insert_key (f : GameItem → GameItem) cur :
  alter f (gameId, userId) (<[(gameId, userId) := cur]> t0)
  = <[(gameId, userId) := f cur]> t0.
Proof. apply alter_insert_eq. Qed.

Lemma poolInv_init : poolInv gameId userId item0 t0 payloads (AwaitGet <$> payloads, t0).
Proof.
  unfold poolInv. cbn [fst snd]. rewrite fulfilled_init.
  split; [by rewrite length_fmap|]. split.
  - exists item0. split; [by rewrite insert_id|]. unfold reach. split; [done|lia].
  - intros i task Hi. rewrite list_lookup_fmap in Hi.
    destruct (payloads !! i) as [p|]; simplify_eq/=. by exists p.
Qed.

Lemma serveAt_inv st i :
  poolInv gameId userId item0 t0 payloads st →
  poolInv gameId userId item0 t0 payloads (serveAt gameId userId st i).
Proof.
  destruct st as [tasks t]. intros (Hlen & (cur & Ht & Hcur) & Htasks).
  cbn [fst snd] in *. unfold serveAt. cbn [fst snd].
  destruct (tasks !! i) as [task|] eqn:Hi; [|by repeat split; eauto].
  destruct (Htasks i task Hi) as (p & Hp & Hok).
  destruct task as [p'|p' it|r|e]; simpl in Hok.
  - (* the read is served *)
    subst p'. rewrite (serve_get_found gameId userId p cur t)
      by (subst t; apply lookup_insert_eq).
    pose proof (fulfilled_insert tasks i _ (AwaitUpdate p cur) Hi) as HF.
    simpl in HF. assert (fulfilled (<[i := AwaitUpdate p cur]> tasks) = fulfilled tasks) as HF'
      by lia.
    unfold poolInv. cbn [fst snd]. rewrite HF'.
    split; [by rewrite length_insert|]. split; [by exists cur|].
    intros j task Hj.
    apply list_lookup_insert_Some in Hj as [(-> & <- & _)|[_ Hj]]; [|by apply Htasks].
    exists p. split; [done|]. simpl. done.
  - (* the update is served *)
    destruct Hok as [-> Hit]. rewrite serve_update.
    pose proof (fulfilled_insert tasks i _ (Fulfilled (resultOf p it)) Hi) as HF.
    simpl in HF.
    assert (fulfilled (<[i := Fulfilled (resultOf p it)]> tasks) = S (fulfilled tasks)) as HF'
      by lia.
    unfold poolInv. cbn [fst snd]. rewrite HF'.
    split; [by rewrite length_insert|]. split.
    + eexists. split; [subst t; apply alter_insert_key|].
      destruct Hit as (Hs & Hlo & Hhi), Hcur as (Hcs & _ & _).
      unfold reach, storedTotal, guessNumberOf in *. simpl. split; [done|lia].
    + intros j task Hj.
      apply list_lookup_insert_Some in Hj as [(-> & <- & _)|[_ Hj]].
      * exists p. split; [done|]. simpl. exists it. split; [done|].
        split; [|lia]. eapply reach_mono; [|exact Hit]. lia.
      * destruct (Htasks j task Hj) as (q & Hq & Hokq). exists q. split; [done|].
        eapply taskOk_mono; [|exact Hokq]. lia.
  - (* a settled call *)
    simpl. rewrite list_insert_id by done. repeat split; eauto.
  - done.
Qed.

Lemma runTasks_inv schedule st :
  poolInv gameId userId item0 t0 payloads st →
  poolInv gameId userId item0 t0 payloads (runTasks gameId userId schedule st).
Proof.
  revert st. induction schedule as [|i s IH]; intros st Hinv; [done|].
  rewrite runTasks_cons. by apply IH, serveAt_inv.
Qed.
End present.

(** X14: a publish for a stored game whose stored total is at least -1 and,
    raised by the number of events, at most the largest safe integer (so
    that every update is accepted), once the table has served every call,
    is answered whatever the order of service: one response per event, in
    the order of the events and under their ids, each echoing its guess with
    the feedback against the stored secret, a guess number between the
    stored total plus 1 and the stored total plus the number of events, and
    status and secret disclosure following from these.  The table changes
    at the item of the game only; its secret is kept and its total is
    raised by at most the number of events. *)
Theorem publish_any_schedule (event : LambdaEvent) (schedule : list nat)
    (t : GamesTable) (item : GameItem) :
  operation event = "PUBLISH" →
  t !! (slice 6 (channelPath event), identitySub event) = Some item →
  -1 ≤ default 0 (totalGuesses item) →
  default 0 (totalGuesses item) + Z.of_nat (length (events event)) ≤ maxSafeInteger →
  servedTwice (length (events event)) schedule →
  ∃ out t' item',
    ValidateGuess.handler event schedule t = (Some (inr (Published out)), t')
    ∧ length out = length (events event)
    ∧ (∀ k, k ≠ (slice 6 (channelPath event), identitySub event) → t' !! k = t !! k)
    ∧ t' !! (slice 6 (channelPath event), identitySub event) = Some item'
    ∧ secretCode item' = secretCode item
    ∧ default 0 (totalGuesses item) ≤ default 0 (totalGuesses item')
      ≤ default 0 (totalGuesses item) + Z.of_nat (length (events event))
    ∧ ∀ i ev, events event !! i = Some ev →
        ∃ r, out !! i = Some (mkResolved (ev_id ev) r)
             ∧ r_guess r = guess (ev_payload ev)
             ∧ (r_blackPegs r, r_whitePegs r)
               = feedback (guess (ev_payload ev)) (secretCode item)
             ∧ default 0 (totalGuesses item) + 1 ≤ r_guessNumber r
               ≤ default 0 (totalGuesses item) + Z.of_nat (length (events event))
             ∧ r_gameStatus r
               = nextStatus (r_blackPegs r) (secretCode item) (r_guessNumber r)
             ∧ r_secretCode r = returnSecretCode (r_gameStatus r) (secretCode item).
Proof.
  intros Hop Hitem _ _ Hserved. unfold ValidateGuess.handler.
  rewrite bool_decide_true by done.
  set (gameId := slice 6 (channelPath event)) in *.
  set (userId := identitySub event) in *.
  rewrite (list_fmap_compose ev_payload AwaitGet).
  set (payloads := ev_payload <$> events event).
  pose proof (runTasks_inv gameId userId item t payloads schedule _
                (poolInv_init gameId userId item t payloads Hitem)) as Hinv.
  pose proof (runTasks_settled gameId userId (length (events event)) schedule
                (AwaitGet <$> payloads, t)) as Hsettled.
  destruct (runTasks gameId userId schedule (AwaitGet <$> payloads, t)) as [tasks t'].
  destruct Hinv as (Hlen & (cur & Ht' & Hcs & Hlo & Hhi) & Htasks). cbn [fst snd] in *.
  assert (Hn : length payloads = length (events event)) by apply length_fmap.
  pose proof (fulfilled_le tasks) as HF.
  destruct (promiseAll_all_fulfilled tasks) as [rs Hrs].
  { intros i task Hi. destruct (Htasks i task Hi) as (p & _ & Hok).
    assert (stage task = 2%nat) as Hst.
    { apply (Hsettled i task Hserved); [by rewrite !length_fmap|done]. }
    destruct task; try discriminate; [eauto|done]. }
  subst tasks. rewrite promiseAll_fmap_Fulfilled. rewrite length_fmap in Hlen, HF.
  eexists _, t', cur. split; [reflexivity|].
  split. { rewrite length_zip_with. lia. }
  split. { intros k Hk. subst t'. by apply lookup_insert_ne. }
  split. { subst t'. apply lookup_insert_eq. }
  split; [done|]. unfold storedTotal in *. split; [lia|].
  intros i ev Hev.
  assert (payloads !! i = Some (ev_payload ev)) as Hp.
  { unfold payloads. by rewrite list_lookup_fmap, Hev. }
  destruct (lookup_lt_is_Some_2 rs i) as [r Hr].
  { rewrite Hlen, Hn. by eapply lookup_lt_Some. }
  destruct (Htasks i (Fulfilled r)) as (p & Hp' & it & -> & (His & Hilo & Hihi) & HF1).
  { by rewrite list_lookup_fmap, Hr. }
  rewrite Hp in Hp'. simplify_eq.
  exists (resultOf (ev_payload ev) it).
  split. { rewrite lookup_zip_with, Hev. simpl. by rewrite Hr. }
  cbn [resultOf r_guess r_blackPegs r_whitePegs r_guessNumber r_gameStatus r_secretCode].
  unfold statusAfter, guessNumberOf. rewrite His.
  split; [done|]. split; [symmetry; apply surjective_pairing|].
  unfold storedTotal in *. split; [lia|done].
Qed.

Lemma publish_any_schedule_witness :
  operation samplePublish = "PUBLISH"
  ∧ sampleTable sampleFresh !! (slice 6 (channelPath samplePublish), identitySub samplePublish)
    = Some sampleFresh
  ∧ -1 ≤ default 0 (totalGuesses sampleFresh)
  ∧ default 0 (totalGuesses sampleFresh) + Z.of_nat (length (events samplePublish))
    ≤ maxSafeInteger
  ∧ servedTwice (length (events samplePublish)) [1; 0; 0; 1]%nat
  ∧ ∃ out t' item',
    ValidateGuess.handler samplePublish [1; 0; 0; 1]%nat (sampleTable sampleFresh)
    = (Some (inr (Published out)), t')
    ∧ length out = length (events samplePublish)
    ∧ (∀ k, k ≠ (slice 6 (channelPath samplePublish), identitySub samplePublish) →
            t' !! k = sampleTable sampleFresh !! k)
    ∧ t' !! (slice 6 (channelPath samplePublish), identitySub samplePublish) = Some item'
    ∧ secretCode item' = secretCode sampleFresh
    ∧ default 0 (totalGuesses sampleFresh) ≤ default 0 (totalGuesses item')
      ≤ default 0 (totalGuesses sampleFresh) + Z.of_nat (length (events samplePublish))
    ∧ ∀ i ev, events samplePublish !! i = Some ev →
        ∃ r, out !! i = Some (mkResolved (ev_id ev) r)
             ∧ r_guess r = guess (ev_payload ev)
             ∧ (r_blackPegs r, r_whitePegs r)
               = feedback (guess (ev_payload ev)) (secretCode sampleFresh)
             ∧ default 0 (totalGuesses sampleFresh) + 1 ≤ r_guessNumber r
               ≤ default 0 (totalGuesses sampleFresh) + Z.of_nat (length (events samplePublish))
             ∧ r_gameStatus r
               = nextStatus (r_blackPegs r) (secretCode sampleFresh) (r_guessNumber r)
             ∧ r_secretCode r = returnSecretCode (r_gameStatus r) (secretCode sampleFresh).
Proof.
  assert (Hop : operation samplePublish = "PUBLISH") by reflexivity.
  assert (Hkey : sampleTable sampleFresh
                   !! (slice 6 (channelPath samplePublish), identitySub samplePublish)
                 = Some sampleFresh) by apply sampleTable_lookup.
  assert (Hs : servedTwice (length (events samplePublish)) [1; 0; 0; 1]%nat).
  { intros [|[|i]] Hi; [vm_compute; lia|vm_compute; lia|simpl in Hi; lia]. }
  assert (Hlo : -1 ≤ default 0 (totalGuesses sampleFresh)) by (vm_compute; discriminate).
  assert (Hhi : default 0 (totalGuesses sampleFresh)
                + Z.of_nat (length (events samplePublish)) ≤ maxSafeInteger)
    by (vm_compute; discriminate).
  split; [exact Hop|]. split; [exact Hkey|]. split; [exact Hlo|]. split; [exact Hhi|].
  split; [exact Hs|].
  apply (publish_any_schedule samplePublish [1; 0; 0; 1]%nat (sampleTable sampleFresh)
           sampleFresh Hop Hkey Hlo Hhi Hs).
Defined.

Section schedules.
Context (gameId userId : string).
Local Open Scope list_scope.
Implicit Types (payload : ValidateGuessInput) (item : GameItem) (t : GamesTable).
Implicit Types (task : Task) (tasks pre : list Task) (schedule : list nat).

Lemma serveAt_middle pre task rest t :
  serveAt gameId userId (pre ++ task :: rest, t) (length pre)
  = ((pre ++ (serve gameId userId task t).1 :: rest), (serve gameId userId task t).2).
Proof.
  unfold serveAt. cbn [fst snd]. rewrite list_lookup_middle by done.
  destruct (serve gameId userId task t) as [task' t']. cbn [fst snd]. f_equal.
  rewrite insert_app_r_alt by lia. by rewrite Nat.sub_diag.
Qed.

Lemma alter_found (f : GameItem → GameItem) item t :
  t !! (gameId, userId) = Some item →
  alter f (gameId, userId) t = <[(gameId, userId) := f item]> t.
Proof.
  intros H. apply map_eq. intros k. rewrite lookup_alter, lookup_insert.
  case_decide; subst; [by rewrite H|done].
Qed.

(** Served one after the other, the calls do what successive invocations of
    [processEvent] do. *)
Lemma run_sequential payloads pre t item :
  t !! (gameId, userId) = Some item →
  ∃ t' rs,
    processEvents payloads gameId userId t = inr (t', rs)
    ∧ runTasks gameId userId (seq (length pre) (length payloads) ≫= λ i, [i; i])
        (pre ++ (AwaitGet <$> payloads), t)
      = (pre ++ (Fulfilled <$> rs), t').
Proof.
  revert pre t item. induction payloads as [|p ps IH]; intros pre t item Hitem.
  - exists t, []. by split.
  - destruct (IH (pre ++ [Fulfilled (resultOf p item)])
                (<[(gameId, userId) := itemAfter p item]> t) (itemAfter p item)
                (lookup_insert_eq _ _ _)) as (t' & rs & Hrun & Hpool).
    exists t', (resultOf p item :: rs).
    rewrite (processEvents_cons _ _ _ _ _ _ Hitem), Hrun. split; [done|].
    rewrite fmap_cons. cbn [length seq]. rewrite bind_cons. cbn [app].
    rewrite !runTasks_cons, serveAt_middle, (serve_get_found _ _ _ _ _ Hitem).
    cbn [fst snd]. rewrite serveAt_middle, serve_update. cbn [fst snd].
    rewrite (alter_found _ item t Hitem).
    rewrite length_app in Hpool. cbn [length] in Hpool.
    rewrite Nat.add_1_r, <- !(assoc_L (++)) in Hpool. exact Hpool.
Qed.

(** Served at their reads first, all calls hold the same item. *)
Lemma run_reads payloads pre t item :
  t !! (gameId, userId) = Some item →
  runTasks gameId userId (seq (length pre) (length payloads))
    (pre ++ (AwaitGet <$> payloads), t)
  = (pre ++ ((λ p, AwaitUpdate p item) <$> payloads), t).
Proof.
  intros Hitem. revert pre. induction payloads as [|p ps IH]; intros pre; [done|].
  rewrite !fmap_cons. cbn [length seq].
  rewrite runTasks_cons, serveAt_middle, (serve_get_found _ _ _ _ _ Hitem). cbn [fst snd].
  specialize (IH (pre ++ [AwaitUpdate p item])).
  rewrite length_app in IH. cbn [length] in IH.
  rewrite Nat.add_1_r, <- !(assoc_L (++)) in IH. exact IH.
Qed.

Lemma sequential_count i k m :
  length (filter (λ j, j = i) (seq k m ≫= λ i, [i; i]))
  = if decide (k ≤ i < k + m)%nat then 2%nat else 0%nat.
Proof.
  revert k. induction m as [|m IH]; intros k.
  - simpl. by rewrite decide_False by lia.
  - cbn [seq]. rewrite bind_cons. cbn [app]. rewrite !filter_cons.
    destruct (decide (k = i)) as [->|Hne]; cbn [length]; rewrite IH;
      repeat case_decide; lia.
Qed.

Lemma sequentialSchedule_servedTwice n : servedTwice n (sequentialSchedule n).
Proof.
  intros i Hi. unfold sequentialSchedule. rewrite sequential_count.
  rewrite decide_True by lia. done.
Qed.

Lemma zip_with_fmap_r {A B C} (f : A → B → C) (g : A → B) (l : list A) :
  zip_with f l (g <$> l) = (λ x, f x (g x)) <$> l.
Proof.
  induction l as [|x l IH]; [done|].
  rewrite !fmap_cons. cbn [zip_with]. by rewrite IH.
Qed.

(** After the reads, whatever the order of the updates: calls are at their
    update or fulfilled with the response computed from the item all have
    read, and the table is the initial one or holds what one of the guesses
    alone would have left. *)
Lemma run_updates payloads item t0 schedule tasks t :
  t0 !! (gameId, userId) = Some item →
  length tasks = length payloads →
  (∀ i task, tasks !! i = Some task →
     ∃ p, payloads !! i = Some p
          ∧ (task = AwaitUpdate p item ∨ task = Fulfilled (resultOf p item))) →
  ((t = t0 ∧ ∀ i task, tasks !! i = Some task → stage task ≠ 2%nat)
   ∨ ∃ p, p ∈ payloads ∧ t = <[(gameId, userId) := itemAfter p item]> t0) →
  let st' := runTasks gameId userId schedule (tasks, t) in
  length st'.1 = length payloads
  ∧ (∀ i task, st'.1 !! i = Some task →
       ∃ p, payloads !! i = Some p
            ∧ (task = AwaitUpdate p item ∨ task = Fulfilled (resultOf p item)))
  ∧ ((st'.2 = t0 ∧ ∀ i task, st'.1 !! i = Some task → stage task ≠ 2%nat)
     ∨ ∃ p, p ∈ payloads ∧ st'.2 = <[(gameId, userId) := itemAfter p item]> t0).
Proof.
  intros Hitem. revert tasks t.
  induction schedule as [|j s IH]; intros tasks t Hlen Htasks Ht; [done|].
  cbn zeta. rewrite runTasks_cons. unfold serveAt. cbn [fst snd].
  destruct (tasks !! j) as [task|] eqn:Hj; [|by apply IH].
  destruct (Htasks j task Hj) as (p & Hp & [->| ->]).
  - rewrite serve_update. apply IH.
    + by rewrite length_insert.
    + intros i task Hi.
      apply list_lookup_insert_Some in Hi as [(-> & <- & _)|[_ Hi]]; [|by apply Htasks].
      exists p. split; [done|by right].
    + right. exists p. split; [by eapply list_elem_of_lookup_2|].
      destruct Ht as [[Ht _]|(q & _ & Ht)]; rewrite Ht.
      * exact (alter_found
                 (λ cur, setGuess cur (guessNumberOf item)
                           (guessAttrOf p (secretCode item)) (statusAfter p item))
                 item t0 Hitem).
      * rewrite alter_insert_eq. f_equal.
        unfold itemAfter, setGuess. cbn [secretCode guesses]. f_equal.
        apply insert_insert_eq.
  - simpl. rewrite list_insert_id by done. by apply IH.
Qed.
End schedules.

(** X15: when the table serves the calls of a publish one after the other,
    the handler does what successive invocations of [processEvent] on the
    payloads do: the same error or the same responses, under the ids of the
    events, and the same table. *)
Theorem publish_sequential (event : LambdaEvent) (t : GamesTable) :
  operation event = "PUBLISH" →
  ValidateGuess.handler event (sequentialSchedule (length (events event))) t
  = match processEvents (ev_payload <$> events event)
            (slice 6 (channelPath event)) (identitySub event) t with
    | inl e => (Some (inl e), t)
    | inr (t', rs) =>
        (Some (inr (Published (zip_with (λ ev r, mkResolved (ev_id ev) r) (events event) rs))),
         t')
    end.
Proof.
  intros Hop. unfold ValidateGuess.handler. rewrite bool_decide_true by done.
  set (gameId := slice 6 (channelPath event)).
  set (userId := identitySub event).
  rewrite (list_fmap_compose ev_payload AwaitGet).
  assert (Hn : length (events event) = length (ev_payload <$> events event))
    by (by rewrite length_fmap).
  rewrite Hn. set (payloads := ev_payload <$> events event).
  destruct (t !! (gameId, userId)) as [item|] eqn:Hitem.
  - destruct (run_sequential gameId userId payloads [] t item Hitem)
      as (t' & rs & Hrun & Hpool).
    cbn [length app] in Hpool. unfold sequentialSchedule.
    rewrite Hpool, Hrun, promiseAll_fmap_Fulfilled. done.
  - destruct payloads as [|p ps] eqn:Hps; [done|].
    cbn [processEvents]. unfold mbind at 1, M_bind at 1.
    rewrite (processEvent_not_found _ _ _ _ Hitem).
    destruct (runTasks_missing gameId userId (sequentialSchedule (length (p :: ps)))
                (AwaitGet <$> p :: ps) t Hitem) as [Ht Htasks].
    { intros i task Hi. rewrite list_lookup_fmap in Hi.
      destruct ((p :: ps) !! i); simplify_eq/=. by left. }
    pose proof (runTasks_length gameId userId (sequentialSchedule (length (p :: ps)))
                  (AwaitGet <$> p :: ps, t)) as Hlen.
    pose proof (runTasks_settled gameId userId (length (p :: ps))
                  (sequentialSchedule (length (p :: ps)))
                  (AwaitGet <$> p :: ps, t)) as Hsettled.
    destruct (runTasks gameId userId _ _) as [tasks t'].
    cbn [fst snd] in *. subst t'.
    rewrite (promiseAll_all_rejected (Error "Game not found") tasks); [done| |].
    + intros ->. discriminate.
    + intros i task Hi. destruct (Htasks i task Hi) as [H0|]; [|done].
      rewrite (Hsettled i task) in H0;
        [discriminate|apply sequentialSchedule_servedTwice|by rewrite length_fmap|done].
Qed.

Lemma publish_sequential_witness :
  operation samplePublish = "PUBLISH"
  ∧ ValidateGuess.handler samplePublish (sequentialSchedule (length (events samplePublish)))
      (sampleTable sampleFresh)
    = match processEvents (ev_payload <$> events samplePublish)
              (slice 6 (channelPath samplePublish)) (identitySub samplePublish)
              (sampleTable sampleFresh) with
      | inl e => (Some (inl e), sampleTable sampleFresh)
      | inr (t', rs) =>
          (Some (inr (Published
             (zip_with (λ ev r, mkResolved (ev_id ev) r) (events samplePublish) rs))), t')
      end.
Proof.
  assert (Hop : operation samplePublish = "PUBLISH") by reflexivity.
  split; [exact Hop|].
  apply (publish_sequential samplePublish (sampleTable sampleFresh) Hop).
Defined.

(** X16: for a stored game whose next guess number the update accepts,
    when the table serves the reads of all calls of a publish before any of
    their updates, in whatever order the updates then come, every guess is
    answered as [processEvent] answers it alone on the table as it
    was, all with the same guess number, and the table ends as
    [processEvent] leaves it for one of the guesses alone: the guesses
    published together count as one attempt and one of them is stored. *)
Theorem publish_reads_first (event : LambdaEvent) (updates : list nat)
    (t : GamesTable) (item : GameItem) :
  operation event = "PUBLISH" →
  t !! (slice 6 (channelPath event), identitySub event) = Some item →
  updateAccepted (default 0 (totalGuesses item) + 1) →
  events event ≠ [] →
  servedTwice (length (events event)) (seq 0 (length (events event)) ++ updates)%list →
  ∃ out t',
    ValidateGuess.handler event (seq 0 (length (events event)) ++ updates)%list t
    = (Some (inr (Published out)), t')
    ∧ length out = length (events event)
    ∧ (∀ i ev, events event !! i = Some ev →
         ∃ ti r,
           processEvent (ev_payload ev) (slice 6 (channelPath event)) (identitySub event) t
           = inr (ti, r)
           ∧ out !! i = Some (mkResolved (ev_id ev) r)
           ∧ r_guessNumber r = default 0 (totalGuesses item) + 1)
    ∧ ∃ ev r,
        ev ∈ events event
        ∧ processEvent (ev_payload ev) (slice 6 (channelPath event)) (identitySub event) t
          = inr (t', r).
Proof.
  intros Hop Hitem _ Hne Hserved. unfold ValidateGuess.handler.
  rewrite bool_decide_true by done.
  set (gameId := slice 6 (channelPath event)) in *.
  set (userId := identitySub event) in *.
  rewrite (list_fmap_compose ev_payload AwaitGet).
  assert (Hn : length (events event) = length (ev_payload <$> events event))
    by (by rewrite length_fmap).
  set (payloads := ev_payload <$> events event) in *.
  pose proof (runTasks_settled gameId userId (length (events event))
                (seq 0 (length (events event)) ++ updates)%list
                (AwaitGet <$> payloads, t)) as Hsettled.
  rewrite runTasks_app in Hsettled |- *. rewrite Hn in Hsettled, Hserved |- *.
  pose proof (run_reads gameId userId payloads [] t item Hitem) as Hreads.
  cbn [length app] in Hreads. rewrite Hreads in Hsettled |- *.
  destruct (run_updates gameId userId payloads item t updates
              ((λ p, AwaitUpdate p item) <$> payloads) t Hitem)
    as (Hlen & Htasks & Ht).
  { by rewrite length_fmap. }
  { intros i task Hi. rewrite list_lookup_fmap in Hi.
    destruct (payloads !! i) as [p|]; simplify_eq/=. exists p. split; [done|by left]. }
  { left. split; [done|]. intros i task Hi. rewrite list_lookup_fmap in Hi.
    destruct (payloads !! i) as [p|]; simplify_eq/=. done. }
  destruct (runTasks gameId userId updates _) as [tasks t']. cbn [fst snd] in *.
  assert (Hall : ∀ i task, tasks !! i = Some task →
                   ∃ p, payloads !! i = Some p ∧ task = Fulfilled (resultOf p item)).
  { intros i task Hi. destruct (Htasks i task Hi) as (p & Hp & [->| ->]); [|eauto].
    assert (stage (AwaitUpdate p item) = 2%nat) as Hst; [|discriminate].
    apply (Hsettled i _ Hserved); [by rewrite length_fmap|done]. }
  assert (tasks = Fulfilled <$> ((λ p, resultOf p item) <$> payloads)) as ->.
  { apply list_eq. intros i. rewrite !list_lookup_fmap.
    destruct (tasks !! i) as [task|] eqn:Hi.
    - destruct (Hall i task Hi) as (p & -> & ->). done.
    - apply lookup_ge_None in Hi. rewrite Hlen in Hi.
      by rewrite (proj2 (lookup_ge_None payloads i) Hi). }
  rewrite promiseAll_fmap_Fulfilled.
  eexists _, t'. split; [reflexivity|].
  split. { rewrite length_zip_with, !length_fmap. lia. }
  split.
  - intros i ev Hev.
    exists (<[(gameId, userId) := itemAfter (ev_payload ev) item]> t),
      (resultOf (ev_payload ev) item).
    split; [by apply processEvent_found|]. split; [|done].
    rewrite lookup_zip_with, Hev. cbn [mbind option_bind].
    unfold payloads. by rewrite !list_lookup_fmap, Hev.
  - destruct Ht as [[_ Hst]|(p & Hp & ->)].
    + exfalso. destruct (lookup_lt_is_Some_2 payloads 0) as [p Hp].
      { rewrite <- Hn. destruct (events event); [done|simpl; lia]. }
      apply (Hst 0%nat (Fulfilled (resultOf p item))); [|done].
      by rewrite !list_lookup_fmap, Hp.
    + apply list_elem_of_fmap in Hp as (ev & -> & Hev).
      exists ev, (resultOf (ev_payload ev) item). split; [done|].
      by apply processEvent_found.
Qed.

Lemma publish_reads_first_witness :
  operation samplePublish = "PUBLISH"
  ∧ sampleTable sampleFresh !! (slice 6 (channelPath samplePublish), identitySub samplePublish)
    = Some sampleFresh
  ∧ updateAccepted (default 0 (totalGuesses sampleFresh) + 1)
  ∧ events samplePublish ≠ []
  ∧ servedTwice (length (events samplePublish))
      (seq 0 (length (events samplePublish)) ++ [1; 0]%nat)%list
  ∧ ∃ out t',
    ValidateGuess.handler samplePublish
      (seq 0 (length (events samplePublish)) ++ [1; 0]%nat)%list (sampleTable sampleFresh)
    = (Some (inr (Published out)), t')
    ∧ length out = length (events samplePublish)
    ∧ (∀ i ev, events samplePublish !! i = Some ev →
         ∃ ti r,
           processEvent (ev_payload ev) (slice 6 (channelPath samplePublish))
             (identitySub samplePublish) (sampleTable sampleFresh)
           = inr (ti, r)
           ∧ out !! i = Some (mkResolved (ev_id ev) r)
           ∧ r_guessNumber r = default 0 (totalGuesses sampleFresh) + 1)
    ∧ ∃ ev r,
        ev ∈ events samplePublish
        ∧ processEvent (ev_payload ev) (slice 6 (channelPath samplePublish))
            (identitySub samplePublish) (sampleTable sampleFresh)
          = inr (t', r).
Proof.
  assert (Hop : operation samplePublish = "PUBLISH") by reflexivity.
  assert (Hkey : sampleTable sampleFresh
                   !! (slice 6 (channelPath samplePublish), identitySub samplePublish)
                 = Some sampleFresh) by apply sampleTable_lookup.
  assert (Hne : events samplePublish ≠ []) by discriminate.
  assert (Hs : servedTwice (length (events samplePublish))
                 (seq 0 (length (events samplePublish)) ++ [1; 0]%nat)%list).
  { intros [|[|i]] Hi; [vm_compute; lia|vm_compute; lia|simpl in Hi; lia]. }
  assert (Hacc : updateAccepted (default 0 (totalGuesses sampleFresh) + 1))
    by (split; vm_compute; discriminate).
  split; [exact Hop|]. split; [exact Hkey|]. split; [exact Hacc|]. split; [exact Hne|].
  split; [exact Hs|].
  apply (publish_reads_first samplePublish [1; 0]%nat (sampleTable sampleFresh) sampleFresh
           Hop Hkey Hacc Hne Hs).
Defined.

(** Two guesses published at once on a new game, reads served first: both
    are answered as guess 1 and the table counts one guess. *)
Example publish_lost_update :
  (ValidateGuess.handler samplePublish [0; 1; 0; 1]%nat (sampleTable sampleFresh)).1
  = Some (inr (Published
       [mkResolved "e1" (mkResult ["G";"R"] 0 2 1 playing None);
        mkResolved "e2" (mkResult ["R";"G"] 2 0 1 won (Some ["R";"G"]))]))
  ∧ totalGuesses
      <$> (ValidateGuess.handler samplePublish [0; 1; 0; 1]%nat (sampleTable sampleFresh)).2
          !! ("game-1", "user-1")
    = Some (Some 1).
Proof. split; vm_compute; reflexivity. Qed.

Section single.
Context (gameId userId : string).
Implicit Types (task : Task) (t : GamesTable) (schedule : list nat).

Lemma serve_settled task t : stage task = 2%nat → serve gameId userId task t = (task, t).
Proof. by destruct task. Qed.

Lemma serve_again task t :
  serve gameId userId (serve gameId userId (serve gameId userId task t).1
                         (serve gameId userId task t).2).1
    (serve gameId userId (serve gameId userId task t).1 (serve gameId userId task t).2).2
  = serve gameId userId (serve gameId userId task t).1 (serve gameId userId task t).2.
Proof.
  pose proof (serve_stage gameId userId task t) as H1.
  destruct (serve gameId userId task t) as [task1 t1]. cbn [fst snd] in *.
  pose proof (serve_stage gameId userId task1 t1) as H2.
  destruct (serve gameId userId task1 t1) as [task2 t2]. cbn [fst snd] in *.
  apply serve_settled. assert (stage task2 ≤ 2)%nat by (destruct task2; simpl; lia). lia.
Qed.

(** A publish with one event: the indices other than 0 are ignored and the
    call is settled once it has been served twice. *)
Lemma run_single schedule task t :
  (2 ≤ stage task + length (filter (λ j, j = 0%nat) schedule))%nat →
  runTasks gameId userId schedule ([task], t)
  = ([(serve gameId userId (serve gameId userId task t).1 (serve gameId userId task t).2).1],
     (serve gameId userId (serve gameId userId task t).1 (serve gameId userId task t).2).2).
Proof.
  revert task t. induction schedule as [|j s IH]; intros task t Hcount.
  - rewrite filter_nil in Hcount. cbn [length] in Hcount.
    assert (stage task = 2%nat) as Hst by (destruct task; simpl in *; lia).
    rewrite (serve_settled task t Hst). cbn [fst snd].
    by rewrite (serve_settled task t Hst).
  - rewrite runTasks_cons, filter_cons in *. destruct j as [|j].
    + rewrite decide_True in Hcount by done. cbn [length] in Hcount.
      unfold serveAt. cbn [fst snd lookup list_lookup].
      pose proof (serve_stage gameId userId task t) as Hst.
      pose proof (serve_again task t) as Hagain.
      destruct (serve gameId userId task t) as [task1 t1]. cbn [fst snd] in *.
      cbn [insert list_insert]. rewrite IH by lia.
      by rewrite Hagain.
    + rewrite decide_False in Hcount by done.
      unfold serveAt. cbn [fst snd]. rewrite lookup_cons_ne_0, lookup_nil by done.
      by apply IH.
Qed.
End single.

(** X17: a publish of one guess on the channel [/game/<id>] by a user does,
    once the call has been served at its read and at its update, what
    [processEvent] does for game [<id>] of that user: the same error, or
    its response under the id of the event and its table. *)
Theorem publish_single (id sub eventId : string) (payload : ValidateGuessInput)
    (schedule : list nat) (t : GamesTable) :
  (2 ≤ length (filter (λ j, j = 0%nat) schedule))%nat →
  ValidateGuess.handler
    {| operation := "PUBLISH"; identitySub := sub; channelPath := "/game/" ++ id;
       events := [mkEvent eventId payload] |} schedule t
  = match processEvent payload id sub t with
    | inl e => (Some (inl e), t)
    | inr (t', r) => (Some (inr (Published [mkResolved eventId r])), t')
    end.
Proof.
  intros Hcount. unfold ValidateGuess.handler. cbn [operation identitySub channelPath events].
  rewrite bool_decide_true by done.
  change (slice 6 ("/game/" ++ id)) with id.
  change (AwaitGet ∘ ev_payload <$> [mkEvent eventId payload]) with [AwaitGet payload].
  rewrite (run_single id sub schedule (AwaitGet payload) t) by (simpl; lia).
  pose proof (serve_twice id sub payload t) as Htwice.
  destruct (serve id sub (AwaitGet payload) t) as [task1 t1]. cbn [fst snd].
  rewrite Htwice.
  by destruct (processEvent payload id sub t) as [e|[t' r]].
Qed.

Lemma publish_single_witness :
  (2 ≤ length (filter (λ j, j = 0%nat) [0; 3; 0]%nat))%nat
  ∧ ValidateGuess.handler
      {| operation := "PUBLISH"; identitySub := "user-1"; channelPath := "/game/" ++ "game-1";
         events := [mkEvent "e1" (mkInput ["R";"G"])] |} [0; 3; 0]%nat (sampleTable sampleFresh)
    = match processEvent (mkInput ["R";"G"]) "game-1" "user-1" (sampleTable sampleFresh) with
      | inl e => (Some (inl e), sampleTable sampleFresh)
      | inr (t', r) => (Some (inr (Published [mkResolved "e1" r])), t')
      end.
Proof.
  assert (Hc : (2 ≤ length (filter (λ j, j = 0%nat) [0; 3; 0]%nat))%nat)
    by (vm_compute; lia).
  split; [exact Hc|].
  apply (publish_single "game-1" "user-1" "e1" (mkInput ["R";"G"]) [0; 3; 0]%nat
           (sampleTable sampleFresh) Hc).
Defined.

(** Another operation is passed through and the table is not read. *)
Example subscribe_passthrough :
  ValidateGuess.handler
    {| operation := "SUBSCRIBE"; identitySub := "user-1"; channelPath := "/game/game-1";
       events := [] |} [] (sampleTable sampleFresh)
  = (Some (inr (PassedThrough [])), sampleTable sampleFresh).
Proof. reflexivity. Qed.
